(** * MERC-20: the ERC-20 port written in Compact (contract/src/erc20.compact)

    A shallow embedding of the token contract and of the part of its test
    simulator that drives it, followed by the properties of the ledger
    state machine: conservation of the supply, failure atomicity, the
    order of the checks of [transferFrom], the postconditions of the
    circuits and the unreachability of the overflow branch. *)

From Stdlib Require Import NArith.
From Stdlib.Strings Require Import Byte.
From stdpp Require Import gmap strings list fin_maps.

Open Scope N_scope.

(** ** Bytes and unsigned integers *)

(** [Bytes<32>] values are byte strings; they are the keys of both ledger
    maps. *)
Definition Bytes : Type := list byte.

#[export] Instance byte_eq_dec : EqDecision byte := Byte.byte_eq_dec.

#[export] Instance byte_countable : Countable byte.
Proof.
  refine (inj_countable' Byte.to_N (λ n, default x00 (Byte.of_N n)) _).
  intros b. by rewrite Byte.of_to_N.
Defined.

(** The largest value of [Uint<222>]. *)
Definition max_uint222 : N := 2 ^ 222 - 1.

(** Membership in [Uint<222>], as a proposition and as a test. *)
Definition Uint222 (n : N) : Prop := n <= max_uint222.
Definition fits_uint222 (n : N) : bool := n <=? max_uint222.

(** [pad(n, s)]: the bytes of [s] followed by zero bytes up to length [n]. *)
Definition pad (n : nat) (s : string) : Bytes :=
  let b := String.list_byte_of_string s in
  b ++ replicate (n - length b) x00.

(** ** Ledger state *)

Record Ledger : Type := mkLedger {
  tokenName : string;
  tokenSymbol : string;
  tokenDecimals : N;
  totalSupply : N;
  balances : gmap Bytes N;
  allowances : gmap Bytes (gmap Bytes N)
}.

(** The ledger before the constructor runs: every field at the default
    value of its type. *)
Definition default_ledger : Ledger :=
  {| tokenName := EmptyString; tokenSymbol := EmptyString;
     tokenDecimals := 0;
     totalSupply := 0; balances := ∅; allowances := ∅ |}.

Definition set_tokenName (v : string) (l : Ledger) : Ledger :=
  mkLedger v (tokenSymbol l) (tokenDecimals l) (totalSupply l)
    (balances l) (allowances l).
Definition set_tokenSymbol (v : string) (l : Ledger) : Ledger :=
  mkLedger (tokenName l) v (tokenDecimals l) (totalSupply l)
    (balances l) (allowances l).
Definition set_tokenDecimals (v : N) (l : Ledger) : Ledger :=
  mkLedger (tokenName l) (tokenSymbol l) v (totalSupply l)
    (balances l) (allowances l).
Definition set_totalSupply (v : N) (l : Ledger) : Ledger :=
  mkLedger (tokenName l) (tokenSymbol l) (tokenDecimals l) v
    (balances l) (allowances l).
Definition set_balances (v : gmap Bytes N) (l : Ledger) : Ledger :=
  mkLedger (tokenName l) (tokenSymbol l) (tokenDecimals l) (totalSupply l)
    v (allowances l).
Definition set_allowances (v : gmap Bytes (gmap Bytes N)) (l : Ledger)
  : Ledger :=
  mkLedger (tokenName l) (tokenSymbol l) (tokenDecimals l) (totalSupply l)
    (balances l) v.

(** ** Failures of a circuit

    The three [assert] messages of the contract, the failed cast to
    [Uint<222>], and the two faults of the language that the contract
    guards against: looking up a key that a map does not hold, and a
    subtraction of unsigned integers below zero. *)
Inductive Error : Type :=
  | InsufficientBalance
  | NoAllowanceSet
  | InsufficientAllowance
  | ArithmeticOverflow
  | MapKeyAbsent
  | ArithmeticUnderflow.

#[export] Instance Error_eq_dec : EqDecision Error.
Proof. solve_decision. Defined.

(** ** The circuit monad

    A circuit reads the caller's private state (the secret key handed out
    by the witness [get_secret_key]), threads the ledger through its
    statements and either returns a value or stops at the first failure.
    The ledger component of a failed run is the ledger as the statements
    executed so far left it. *)
Definition Circuit (A : Type) : Type := Bytes → Ledger → Ledger * (Error + A).

Definition ret {A} (a : A) : Circuit A := λ _ l, (l, inr a).

Definition bind {A B} (c : Circuit A) (f : A → Circuit B) : Circuit B :=
  λ sk l,
    match c sk l with
    | (l', inr a) => f a sk l'
    | (l', inl e) => (l', inl e)
    end.

Declare Scope circuit_scope.
Delimit Scope circuit_scope with circuit.
Notation "x ← y ; z" := (bind y (λ x, z))
  (at level 20, y at level 100, z at level 200, only parsing) : circuit_scope.
Notation "x ;; z" := (bind x (λ _, z))
  (at level 100, z at level 200, only parsing, right associativity)
  : circuit_scope.
Open Scope circuit_scope.

Definition fail {A} (e : Error) : Circuit A := λ _ l, (l, inl e).

(** [assert cond msg] *)
Definition assert (cond : bool) (e : Error) : Circuit unit :=
  if cond then ret tt else fail e.

(** The witness [get_secret_key] of witnesses.ts: it returns the secret
    key of the private state and leaves the private state as it is. *)
Definition get_secret_key : Circuit Bytes := λ sk l, (l, inr sk).

Definition read {A} (f : Ledger → A) : Circuit A := λ _ l, (l, inr (f l)).
Definition write (g : Ledger → Ledger) : Circuit unit := λ _ l, (g l, inr tt).

(** [m.member(k)] and [m.lookup(k)] on a map value. *)
Definition member {V} (k : Bytes) (m : gmap Bytes V) : bool :=
  match m !! k with Some _ => true | None => false end.

Definition lookup_or_fault {V} (k : Bytes) (m : gmap Bytes V) : Circuit V :=
  match m !! k with Some v => ret v | None => fail MapKeyAbsent end.

(** Operations on the ledger field [balances]. *)
Definition balances_member (k : Bytes) : Circuit bool :=
  read (λ l, member k (balances l)).
Definition balances_lookup (k : Bytes) : Circuit N :=
  m ← read balances; lookup_or_fault k m.
Definition balances_insert (k : Bytes) (v : N) : Circuit unit :=
  write (λ l, set_balances (<[k := v]> (balances l)) l).

(** Operations on the ledger field [allowances]; [allowances_at owner] is
    the nested map [allowances.lookup(owner)]. *)
Definition allowances_member (k : Bytes) : Circuit bool :=
  read (λ l, member k (allowances l)).
Definition allowances_insert (k : Bytes) (v : gmap Bytes N) : Circuit unit :=
  write (λ l, set_allowances (<[k := v]> (allowances l)) l).
Definition allowances_at (owner : Bytes) : Circuit (gmap Bytes N) :=
  m ← read allowances; lookup_or_fault owner m.
Definition allowances_at_member (owner k : Bytes) : Circuit bool :=
  inner ← allowances_at owner; ret (member k inner).
Definition allowances_at_lookup (owner k : Bytes) : Circuit N :=
  inner ← allowances_at owner; lookup_or_fault k inner.
Definition allowances_at_insert (owner k : Bytes) (v : N) : Circuit unit :=
  inner ← allowances_at owner; allowances_insert owner (<[k := v]> inner).

(** Subtraction of unsigned integers: a fault when the result would be
    negative. *)
Definition usub (a b : N) : Circuit N :=
  if a <? b then fail ArithmeticUnderflow else ret (a - b).

(** [e as Uint<222>]: the value when it fits, a failure otherwise. *)
Definition as_Uint222 (n : N) : Circuit N :=
  if fits_uint222 n then ret n else fail ArithmeticOverflow.

(** ** The contract *)

(** [persistent_hash<Vector<2, Bytes<32>>>] belongs to the standard
    library of Compact; the contract is parametric in it. *)
Class PersistentHash : Type := persistent_hash : list Bytes → Bytes.

Section Contract.

Context `{PersistentHash}.

Definition compute_address (sk : Bytes) : Bytes :=
  persistent_hash [pad 32 "merc20:sk"; sk].

Definition constructor (initial_supply : N) (mint_address : Bytes)
    (name symbol : string) (decimals : N) : Circuit unit :=
  balances_insert mint_address initial_supply;;
  write (set_totalSupply initial_supply);;
  write (set_tokenName name);;
  write (set_tokenSymbol symbol);;
  write (set_tokenDecimals decimals).

Definition getTotalSupply : Circuit N := read totalSupply.

Definition balanceOf (owner : Bytes) : Circuit N :=
  b ← balances_member owner;
  if b then balances_lookup owner else ret 0.

Definition allowance (owner spender : Bytes) : Circuit N :=
  b ← allowances_member owner;
  if b then
    b' ← allowances_at_member owner spender;
    if b' then allowances_at_lookup owner spender else ret 0
  else ret 0.

Definition transfer (to : Bytes) (amount : N) : Circuit unit :=
  sk ← get_secret_key;
  let from := compute_address sk in
  b ← balances_member from;
  from_balance ← (if b then balances_lookup from else ret 0);
  assert (amount <=? from_balance) InsufficientBalance;;
  debited ← usub from_balance amount;
  balances_insert from debited;;
  b' ← balances_member to;
  to_balance ← (if b' then balances_lookup to else ret 0);
  credited ← as_Uint222 (to_balance + amount);
  balances_insert to credited.

Definition approve (spender : Bytes) (amount : N) : Circuit unit :=
  sk ← get_secret_key;
  let owner := compute_address sk in
  b ← allowances_member owner;
  (if negb b then allowances_insert owner ∅ else ret tt);;
  allowances_at_insert owner spender amount.

Definition transferFrom (from to : Bytes) (amount : N) : Circuit unit :=
  sk ← get_secret_key;
  let spender := compute_address sk in
  b ← allowances_member from;
  assert b NoAllowanceSet;;
  b' ← allowances_at_member from spender;
  assert b' NoAllowanceSet;;
  allowance ← allowances_at_lookup from spender;
  assert (amount <=? allowance) InsufficientAllowance;;
  b'' ← balances_member from;
  from_balance ← (if b'' then balances_lookup from else ret 0);
  assert (amount <=? from_balance) InsufficientBalance;;
  assert (amount <=? from_balance) InsufficientBalance;;
  remaining ← usub allowance amount;
  allowances_at_insert from spender remaining;;
  debited ← usub from_balance amount;
  balances_insert from debited;;
  b''' ← balances_member to;
  to_balance ← (if b''' then balances_lookup to else ret 0);
  credited ← as_Uint222 (to_balance + amount);
  balances_insert to credited.


(** ** Calling a circuit

    A failed [assert] or cast aborts the call of a circuit: the writes
    made so far are not part of any ledger.  The simulator shows it: it
    replaces its context by the one the circuit returns
    ([this.circuitContext = this.contract.impureCircuits.f(...).context]),
    and when the circuit fails nothing is returned, so that the context,
    hence the ledger, is the one from before the call.  [call c sk l] is
    the ledger after the call of [c] by the holder of [sk], with the
    outcome. *)
Definition call {A} (c : Circuit A) (sk : Bytes) (l : Ledger)
  : Ledger * (Error + A) :=
  match c sk l with
  | (l', inr a) => (l', inr a)
  | (_, inl e) => (l, inl e)
  end.

(** [Contract.initialState]: the constructor run on the default ledger. *)
Definition initialState (deployerSk : Bytes) (initial_supply : N)
    (mint_address : Bytes) (name symbol : string) (decimals : N) : Ledger :=
  fst (call (constructor initial_supply mint_address name symbol decimals)
         deployerSk default_ledger).

(** ** The simulator (contract/src/test/merc20-simulator.ts) *)

Record MERC20Simulator : Type := mkSimulator {
  currentPrivateState : Bytes;
  getLedger : Ledger
}.

(** The constructor of the simulator; the mint address, a hexadecimal
    string in the source, is given as the bytes it denotes, and a missing
    [deployerSk] is the empty byte array. *)
Definition sim_new (initialSupply : N) (mintAddress : Bytes)
    (name symbol : string) (decimals : N) (deployerSk : option Bytes)
  : MERC20Simulator :=
  let sk := default [] deployerSk in
  mkSimulator sk
    (initialState sk initialSupply mintAddress name symbol decimals).

Definition setSk (sk : Bytes) (s : MERC20Simulator) : MERC20Simulator :=
  mkSimulator sk (getLedger s).

(** The body shared by the methods [transfer], [approve] and
    [transferFrom]: the new context and the ledger it holds, or the
    failure of the circuit with the simulator as it was. *)
Definition sim_call (c : Circuit unit) (s : MERC20Simulator)
  : MERC20Simulator * (Error + Ledger) :=
  match call c (currentPrivateState s) (getLedger s) with
  | (l', inr _) => (mkSimulator (currentPrivateState s) l', inr l')
  | (_, inl e) => (s, inl e)
  end.

Definition sim_transfer (to : Bytes) (amount : N) :=
  sim_call (transfer to amount).
Definition sim_approve (spender : Bytes) (amount : N) :=
  sim_call (approve spender amount).
Definition sim_transferFrom (from to : Bytes) (amount : N) :=
  sim_call (transferFrom from to amount).

(** The two read accessors of the simulator; they look at the ledger
    directly instead of calling the circuits of the same name. *)
Definition sim_balanceOf (l : Ledger) (address : Bytes) : N :=
  if member address (balances l)
  then default 0 (balances l !! address) else 0.

Definition sim_allowance (l : Ledger) (owner spender : Bytes) : N :=
  if member owner (allowances l) then
    let ownerAllowances := default ∅ (allowances l !! owner) in
    if member spender ownerAllowances
    then default 0 (ownerAllowances !! spender) else 0
  else 0.

(** ** Sequences of calls *)

(** The stored allowance of a pair, if there is one. *)
Definition allowance_entry (l : Ledger) (owner spender : Bytes) : option N :=
  match allowances l !! owner with
  | Some inner => inner !! spender
  | None => None
  end.

(** The sum of all values of a balance map. *)
Definition sum_balances (m : gmap Bytes N) : N :=
  map_fold (λ _ v acc, v + acc) 0 m.

(** One call of a mutating circuit, with the secret key of its caller. *)
Inductive Op : Type :=
  | OpTransfer (sk to : Bytes) (amount : N)
  | OpApprove (sk spender : Bytes) (amount : N)
  | OpTransferFrom (sk from to : Bytes) (amount : N).

Definition op_caller (op : Op) : Bytes :=
  match op with
  | OpTransfer sk _ _ | OpApprove sk _ _ | OpTransferFrom sk _ _ _ => sk
  end.

Definition op_circuit (op : Op) : Circuit unit :=
  match op with
  | OpTransfer _ to amount => transfer to amount
  | OpApprove _ spender amount => approve spender amount
  | OpTransferFrom _ from to amount => transferFrom from to amount
  end.

Definition apply_op (op : Op) (l : Ledger) : Ledger * (Error + unit) :=
  call (op_circuit op) (op_caller op) l.

(** The ledger after a sequence of calls that all succeed; [None] as soon
    as one of them fails. *)
Fixpoint run_ops (ops : list Op) (l : Ledger) : option Ledger :=
  match ops with
  | [] => Some l
  | op :: ops' =>
      match apply_op op l with
      | (l', inr _) => run_ops ops' l'
      | (_, inl _) => None
      end
  end.

(** The ledger after a sequence of calls, whatever their outcomes. *)
Definition run_calls (ops : list Op) (l : Ledger) : Ledger :=
  foldl (λ l op, fst (apply_op op l)) l ops.

(** [op] is a call of [approve] for [spender] by the holder of [owner]. *)
Definition approves (owner spender : Bytes) (op : Op) : Prop :=
  match op with
  | OpApprove sk spender' _ => compute_address sk = owner ∧ spender' = spender
  | _ => False
  end.

(** Every stored balance is a [Uint<222>]. *)
Definition balances_typed (l : Ledger) : Prop :=
  map_Forall (λ _ v, Uint222 v) (balances l).

(** The balances add up to at most the supply, and the supply is a
    [Uint<222>]. *)
Definition supply_bounded (l : Ledger) : Prop :=
  sum_balances (balances l) <= totalSupply l ∧ Uint222 (totalSupply l).

(** The ledgers that the constructor and sequences of calls produce. *)
Definition reachable (l : Ledger) : Prop :=
  ∃ deployerSk initial_supply mint_address name symbol decimals ops,
    Uint222 initial_supply ∧
    l = run_calls ops (initialState deployerSk initial_supply mint_address
                         name symbol decimals).

(** ** The writes of the circuits, as ledger transformers *)

(** The ledger after the debit of [amount] from [from]. *)
Definition debit (from : Bytes) (amount : N) (l : Ledger) : Ledger :=
  set_balances (<[from := sim_balanceOf l from - amount]> (balances l)) l.

(** The ledger after the credit of [amount] to [to]. *)
Definition credit (to : Bytes) (amount : N) (l : Ledger) : Ledger :=
  set_balances (<[to := sim_balanceOf l to + amount]> (balances l)) l.

(** The ledger after the allowance of [(owner, spender)] is set to [v]. *)
Definition set_allowance (owner spender : Bytes) (v : N) (l : Ledger)
  : Ledger :=
  set_allowances
    (<[owner := <[spender := v]> (default ∅ (allowances l !! owner))]>
       (allowances l)) l.

(** ** Typing of the stored values and of the arguments *)

(** Every stored allowance is a [Uint<222>]. *)
Definition allowances_typed (l : Ledger) : Prop :=
  map_Forall (λ _ inner, map_Forall (λ _ v, Uint222 v) inner) (allowances l).

(** The amount a call is made with, and its membership in [Uint<222>]. *)
Definition op_amount (op : Op) : N :=
  match op with
  | OpTransfer _ _ amount | OpApprove _ _ amount
  | OpTransferFrom _ _ _ amount => amount
  end.

Definition op_typed (op : Op) : Prop := Uint222 (op_amount op).

(** What a call asks to take from [owner] on the allowance of [spender]:
    the amount of a [transferFrom] out of [owner] by the holder of
    [spender], nothing for every other call. *)
Definition spent_by (owner spender : Bytes) (op : Op) : N :=
  match op with
  | OpTransferFrom sk from _ amount =>
      if decide (from = owner ∧ compute_address sk = spender)
      then amount else 0
  | _ => 0
  end.

Definition total_spent (owner spender : Bytes) (ops : list Op) : N :=
  foldr (λ op acc, spent_by owner spender op + acc) 0 ops.

(** ** Hexadecimal strings (Buffer, encoding ['hex'])

    [Buffer.from(s, 'hex')] decodes the characters of [s] two by two and
    stops at the first pair that is not made of two hexadecimal digits;
    a last character without a partner is dropped.
    [buf.toString('hex')] writes two lower-case digits per byte. *)
Definition unhex (c : byte) : option N :=
  let n := Byte.to_N c in
  if (48 <=? n) && (n <=? 57) then Some (n - 48)
  else if (97 <=? n) && (n <=? 102) then Some (n - 87)
  else if (65 <=? n) && (n <=? 70) then Some (n - 55)
  else None.

Fixpoint HexDecode (src : list byte) : Bytes :=
  match src with
  | c1 :: c2 :: rest =>
      match unhex c1, unhex c2 with
      | Some a, Some b =>
          default x00 (Byte.of_N (16 * a + b)) :: HexDecode rest
      | _, _ => []
      end
  | _ => []
  end.

Definition Buffer_from_hex (s : string) : Bytes :=
  HexDecode (String.list_byte_of_string s).

Definition hex_digit (n : N) : byte :=
  nth (N.to_nat n) (String.list_byte_of_string "0123456789abcdef") x00.

Definition Buffer_toString_hex (b : Bytes) : string :=
  String.string_of_list_byte
    (flat_map (λ x, [hex_digit (Byte.to_N x / 16);
                     hex_digit (Byte.to_N x mod 16)]) b).

(** ** The API (api/src/index.ts) *)

(** [stringToBytes32]: the bytes a hexadecimal string denotes; despite
    its name it neither pads nor checks the length. *)
Definition stringToBytes32 (value : string) : Bytes := Buffer_from_hex value.

(** The read methods [balanceOf] and [allowance] of [MERC20API], applied
    to the ledger state that [getLedgerState] fetched. *)
Definition api_balanceOf (ledgerState : Ledger) (address : string) : N :=
  if member (stringToBytes32 address) (balances ledgerState)
  then default 0 (balances ledgerState !! stringToBytes32 address) else 0.

Definition api_allowance (ledgerState : Ledger) (owner spender : string) : N :=
  if member (stringToBytes32 owner) (allowances ledgerState) then
    let ownerAllowances :=
      default ∅ (allowances ledgerState !! stringToBytes32 owner) in
    if member (stringToBytes32 spender) ownerAllowances
    then default 0 (ownerAllowances !! stringToBytes32 spender) else 0
  else 0.

(** The state derived from the ledger and the private state, as the
    projection given to [combineLatest] computes it. *)
Record MERC20DerivedState : Type := mkDerivedState {
  userBalance : N;
  derived_tokenName : string;
  derived_tokenSymbol : string;
  derived_tokenDecimals : N;
  derived_totalSupply : N
}.

Definition derived_state (ledgerState : Ledger) (secretKey : Bytes)
  : MERC20DerivedState :=
  let userAddress := compute_address secretKey in
  let userBalance :=
    if member userAddress (balances ledgerState)
    then default 0 (balances ledgerState !! userAddress) else 0 in
  mkDerivedState userBalance (tokenName ledgerState)
    (tokenSymbol ledgerState) (tokenDecimals ledgerState)
    (totalSupply ledgerState).

(** The constructor of the simulator, with the mint address as the
    hexadecimal string the source takes. *)
Definition sim_new_hex (initialSupply : N) (mintAddress : string)
    (name symbol : string) (decimals : N) (deployerSk : option Bytes)
  : MERC20Simulator :=
  sim_new initialSupply (Buffer_from_hex mintAddress) name symbol decimals
    deployerSk.

End Contract.

(** ** Concrete inputs

    A stand-in for [persistent_hash], to run the contract on concrete
    inputs: the bytewise exclusive or of the elements of the vector.  It
    maps 32-byte strings to 32-byte strings, and distinct secret keys to
    distinct addresses. *)
Definition byte_xor (a b : byte) : byte :=
  default x00 (Byte.of_N (N.lxor (Byte.to_N a) (Byte.to_N b))).

Definition toy_hash : PersistentHash :=
  λ v, foldr (zip_with byte_xor) (replicate 32 x00) v.

Definition sk_deployer : Bytes := replicate 32 x01.
Definition sk_spender : Bytes := replicate 32 x02.
Definition sk_other : Bytes := replicate 32 x03.
Definition addr_deployer : Bytes := @compute_address toy_hash sk_deployer.
Definition addr_spender : Bytes := @compute_address toy_hash sk_spender.
Definition addr_other : Bytes := @compute_address toy_hash sk_other.
Definition addr_recipient : Bytes := replicate 32 xaa.

(** The ledger of the tests: 1000 tokens minted to the deployer. *)
Definition ledger_1000 : Ledger :=
  initialState sk_deployer 1000 addr_deployer "TestToken" "TTK" 18.

(** The calls of the tests, one after the other. *)
Definition test_ops : list Op :=
  [OpTransfer sk_deployer addr_recipient 300;
   OpApprove sk_deployer addr_spender 400;
   OpTransferFrom sk_spender addr_deployer addr_recipient 250].

(** The ledger of the tests after [approve(spender, 400)] by the deployer,
    and after [transferFrom(deployer, recipient, 250)] by the spender. *)
Definition ledger_approved : Ledger :=
  fst (@apply_op toy_hash (OpApprove sk_deployer addr_spender 400)
         ledger_1000).

Definition ledger_spent : Ledger :=
  fst (@apply_op toy_hash
         (OpTransferFrom sk_spender addr_deployer addr_recipient 250)
         ledger_approved).

(** The approved ledger after [transferFrom(deployer, deployer, 250)] by
    the spender. *)
Definition ledger_self_spent : Ledger :=
  fst (@apply_op toy_hash
         (OpTransferFrom sk_spender addr_deployer addr_deployer 250)
         ledger_approved).

(** A ledger that no sequence of calls produces: the balance of the
    recipient is the largest [Uint<222>]. *)
Definition ledger_full : Ledger :=
  set_balances (<[addr_recipient := max_uint222]> (balances ledger_1000))
    ledger_1000.

(** The ledger of the tests after the deployer sent 300 tokens to the
    recipient, and after the deployer sent 300 tokens to the spender. *)
Definition ledger_sent : Ledger :=
  fst (@apply_op toy_hash (OpTransfer sk_deployer addr_recipient 300)
         ledger_1000).

Definition ledger_paid : Ledger :=
  fst (@apply_op toy_hash (OpTransfer sk_deployer addr_spender 300)
         ledger_1000).

(** Calls made after the approval of 400: the spender moves 250 out of
    the deployer, the deployer sends 100, the spender moves 150 more. *)
Definition spend_ops : list Op :=
  [OpTransferFrom sk_spender addr_deployer addr_recipient 250;
   OpTransfer sk_deployer addr_other 100;
   OpTransferFrom sk_spender addr_deployer addr_other 150].

Section Properties.

Context `{PersistentHash}.

(** ** Running the circuits *)

Lemma sim_balanceOf_lookup l a :
  sim_balanceOf l a = default 0 (balances l !! a).
Proof. unfold sim_balanceOf, member. by destruct (balances l !! a). Qed.

Lemma sim_allowance_entry l o s :
  sim_allowance l o s = default 0 (allowance_entry l o s).
Proof.
  unfold sim_allowance, allowance_entry, member.
  destruct (allowances l !! o) as [inner|]; simpl; [|done].
  by destruct (inner !! s).
Qed.

Lemma fits_uint222_true n : fits_uint222 n = true → Uint222 n.
Proof. apply N.leb_le. Qed.

Lemma fits_uint222_false n : fits_uint222 n = false → ¬ Uint222 n.
Proof. unfold fits_uint222, Uint222. intros ?%N.leb_gt. lia. Qed.

Ltac unfold_circuit :=
  unfold balances_member, balances_lookup, balances_insert,
    allowances_member, allowances_at_member, allowances_at_lookup,
    allowances_at_insert, allowances_at, allowances_insert,
    lookup_or_fault, as_Uint222, usub, assert, get_secret_key,
    read, write, fail, bind, ret, member; simpl.

Ltac use_lookups :=
  repeat (simpl;
          match goal with
          | H : ?m !! ?k = _ |- context [?m !! ?k] => rewrite H
          end);
  simpl.

Ltac case_lookup :=
  match goal with
  | |- context [match ?m !! ?k with _ => _ end] =>
      let E := fresh "E" in
      destruct (m !! k) eqn:E; use_lookups
  end.

Ltac case_test :=
  match goal with
  | |- context [if ?a <=? ?b then _ else _] =>
      let E := fresh "E" in
      destruct (a <=? b) eqn:E;
      [apply N.leb_le in E | apply N.leb_gt in E]
  | |- context [if ?a <? ?b then _ else _] =>
      let E := fresh "E" in
      destruct (a <? b) eqn:E;
      [apply N.ltb_lt in E | apply N.ltb_ge in E]
  | |- context [if fits_uint222 ?a then _ else _] =>
      let E := fresh "E" in
      destruct (fits_uint222 a) eqn:E;
      [apply fits_uint222_true in E | apply fits_uint222_false in E]
  end;
  use_lookups.

(** The circuit [balanceOf] returns what the simulator's accessor reads
    and leaves the ledger alone. *)
Lemma balanceOf_run owner sk l :
  balanceOf owner sk l = (l, inr (sim_balanceOf l owner)).
Proof.
  rewrite sim_balanceOf_lookup. unfold balanceOf. unfold_circuit.
  by case_lookup.
Qed.

Lemma allowance_run owner spender sk l :
  allowance owner spender sk l = (l, inr (sim_allowance l owner spender)).
Proof.
  rewrite sim_allowance_entry. unfold allowance, allowance_entry.
  unfold_circuit.
  case_lookup; [|done]. by case_lookup.
Qed.

Lemma transfer_run to amount sk l :
  transfer to amount sk l =
    let from := compute_address sk in
    if amount <=? sim_balanceOf l from then
      let l1 := debit from amount l in
      if fits_uint222 (sim_balanceOf l1 to + amount)
      then (credit to amount l1, inr tt)
      else (l1, inl ArithmeticOverflow)
    else (l, inl InsufficientBalance).
Proof.
  cbv zeta. unfold credit, debit. rewrite !sim_balanceOf_lookup.
  unfold transfer. unfold_circuit.
  set (from := compute_address sk).
  case_lookup; (case_test; [|done]); (case_test; [lia|]);
    case_lookup; by case_test.
Qed.

Lemma approve_run spender amount sk l :
  approve spender amount sk l =
    (set_allowance (compute_address sk) spender amount l, inr tt).
Proof.
  unfold set_allowance, approve. unfold_circuit.
  set (owner := compute_address sk).
  case_lookup; [done|].
  rewrite lookup_insert_eq. simpl. unfold set_allowances. simpl.
  by rewrite insert_insert_eq.
Qed.

Lemma transferFrom_run from to amount sk l :
  transferFrom from to amount sk l =
    let spender := compute_address sk in
    match allowance_entry l from spender with
    | None => (l, inl NoAllowanceSet)
    | Some a =>
        if amount <=? a then
          if amount <=? sim_balanceOf l from then
            let l1 := set_allowance from spender (a - amount) l in
            let l2 := debit from amount l1 in
            if fits_uint222 (sim_balanceOf l2 to + amount)
            then (credit to amount l2, inr tt)
            else (l2, inl ArithmeticOverflow)
          else (l, inl InsufficientBalance)
        else (l, inl InsufficientAllowance)
    end.
Proof.
  cbv zeta.
  unfold allowance_entry, credit, debit, set_allowance, sim_balanceOf.
  unfold transferFrom. unfold_circuit.
  set (spender := compute_address sk).
  destruct (allowances l !! from) as [inner|] eqn:Hin; use_lookups; [|done].
  destruct (inner !! spender) as [a|] eqn:Ha; use_lookups; [|done].
  case_test; [|done].
  destruct (balances l !! from) as [fb|] eqn:Hfb; use_lookups;
    (case_test; [|done]); (case_test; [lia|]); (case_test; [lia|]);
    case_lookup; by case_test.
Qed.

(** ** Calls that succeed and calls that fail *)

Lemma call_ok {A} (c : Circuit A) sk l l' a :
  call c sk l = (l', inr a) ↔ c sk l = (l', inr a).
Proof.
  unfold call. destruct (c sk l) as [l1 [e|a1]]; split; congruence.
Qed.

Lemma call_err {A} (c : Circuit A) sk l l' e :
  call c sk l = (l', inl e) ↔ l' = l ∧ ∃ l1, c sk l = (l1, inl e).
Proof.
  unfold call. destruct (c sk l) as [l1 [e1|a1]]; split.
  - intros [= <- <-]. eauto.
  - intros [-> [l2 [= <- <-]]]. done.
  - congruence.
  - intros [_ [l2 [=]]].
Qed.

Lemma call_transfer_ok to amount sk l l' r :
  call (transfer to amount) sk l = (l', inr r) →
  let from := compute_address sk in
  amount ≤ sim_balanceOf l from ∧
  Uint222 (sim_balanceOf (debit from amount l) to + amount) ∧
  l' = credit to amount (debit from amount l).
Proof.
  rewrite call_ok, transfer_run. cbv zeta.
  case_test; [|done]. case_test; [|done].
  by intros [= <-].
Qed.

Lemma call_approve_ok spender amount sk l :
  call (approve spender amount) sk l =
    (set_allowance (compute_address sk) spender amount l, inr tt).
Proof. unfold call. by rewrite approve_run. Qed.

Lemma call_transferFrom_ok from to amount sk l l' r :
  call (transferFrom from to amount) sk l = (l', inr r) →
  let spender := compute_address sk in
  ∃ a, allowance_entry l from spender = Some a ∧ amount ≤ a ∧
    amount ≤ sim_balanceOf l from ∧
    let l1 := set_allowance from spender (a - amount) l in
    Uint222 (sim_balanceOf (debit from amount l1) to + amount) ∧
    l' = credit to amount (debit from amount l1).
Proof.
  rewrite call_ok, transferFrom_run. cbv zeta.
  destruct (allowance_entry _ _ _) as [a|]; [|done].
  case_test; [|done]. case_test; [|done]. case_test; [|done].
  intros [= <-]. by exists a.
Qed.

(** ** Sums of balances *)

Lemma sum_balances_delete (m : gmap Bytes N) k :
  sum_balances m = default 0 (m !! k) + sum_balances (delete k m).
Proof.
  unfold sum_balances. destruct (m !! k) as [v|] eqn:Hk; simpl.
  - apply (map_fold_delete_L (λ _ v acc, v + acc)); [intros; lia | done].
  - by rewrite delete_id.
Qed.

Lemma sum_balances_insert (m : gmap Bytes N) k v :
  sum_balances (<[k := v]> m) = v + sum_balances (delete k m).
Proof.
  rewrite (sum_balances_delete (<[k := v]> m) k).
  by rewrite lookup_insert_eq, delete_insert_eq.
Qed.

Lemma balance_le_sum l k : sim_balanceOf l k ≤ sum_balances (balances l).
Proof.
  rewrite sim_balanceOf_lookup, (sum_balances_delete (balances l) k). lia.
Qed.

Lemma sum_balances_debit from amount l :
  amount ≤ sim_balanceOf l from →
  sum_balances (balances (debit from amount l)) + amount =
    sum_balances (balances l).
Proof.
  intros Hle. unfold debit; simpl. rewrite sum_balances_insert.
  rewrite (sum_balances_delete (balances l) from), <- sim_balanceOf_lookup.
  lia.
Qed.

Lemma sum_balances_credit to amount l :
  sum_balances (balances (credit to amount l)) =
    sum_balances (balances l) + amount.
Proof.
  unfold credit; simpl. rewrite sum_balances_insert.
  rewrite (sum_balances_delete (balances l) to), <- sim_balanceOf_lookup.
  lia.
Qed.

(** ** The constructor *)

Lemma initialState_eq dsk initial_supply mint_address name symbol decimals :
  initialState dsk initial_supply mint_address name symbol decimals =
    mkLedger name symbol decimals initial_supply
      {[mint_address := initial_supply]} ∅.
Proof. unfold initialState, call, constructor. unfold_circuit. done. Qed.

Lemma sum_balances_singleton k v : sum_balances {[k := v]} = v.
Proof. unfold sum_balances. rewrite map_fold_singleton. lia. Qed.

(** ** What a successful call preserves *)

Lemma apply_op_ok_sum op l l' r :
  apply_op op l = (l', inr r) →
  sum_balances (balances l') = sum_balances (balances l).
Proof.
  unfold apply_op.
  destruct op as [sk to amount|sk spender amount|sk from to amount]; simpl.
  - intros (Hle & _ & ->)%call_transfer_ok.
    rewrite sum_balances_credit.
    by apply sum_balances_debit.
  - rewrite call_approve_ok. by intros [= <-].
  - intros (a & _ & _ & Hle & _ & ->)%call_transferFrom_ok.
    rewrite sum_balances_credit.
    by rewrite (sum_balances_debit from amount (set_allowance _ _ _ l)).
Qed.

Lemma apply_op_ok_fields op l l' r :
  apply_op op l = (l', inr r) →
  totalSupply l' = totalSupply l ∧ tokenName l' = tokenName l ∧
  tokenSymbol l' = tokenSymbol l ∧ tokenDecimals l' = tokenDecimals l.
Proof.
  unfold apply_op.
  destruct op as [sk to amount|sk spender amount|sk from to amount]; simpl.
  - by intros (_ & _ & ->)%call_transfer_ok.
  - rewrite call_approve_ok. by intros [= <-].
  - by intros (a & _ & _ & _ & _ & ->)%call_transferFrom_ok.
Qed.

Lemma run_ops_preserves (P : Ledger → Prop) :
  (∀ op l l' r, apply_op op l = (l', inr r) → P l → P l') →
  ∀ ops l l', run_ops ops l = Some l' → P l → P l'.
Proof.
  intros Hstep ops. induction ops as [|op ops IH]; simpl; intros l l'.
  - by intros [= <-].
  - destruct (apply_op op l) as [l1 [e|r]] eqn:Hop; [done|].
    intros Hrun Hl. eapply IH; [done|]. by eapply Hstep.
Qed.

Lemma apply_op_cases op l :
  (∃ r, apply_op op l = (fst (apply_op op l), inr r)) ∨
  fst (apply_op op l) = l.
Proof.
  destruct (apply_op op l) as [l' [e|r]] eqn:Hop; simpl; [right|left; eauto].
  unfold apply_op in Hop. by apply call_err in Hop as [-> _].
Qed.

Lemma run_calls_preserves (P : Ledger → Prop) :
  (∀ op l l' r, apply_op op l = (l', inr r) → P l → P l') →
  ∀ ops l, P l → P (run_calls ops l).
Proof.
  intros Hstep ops. induction ops as [|op ops IH]; simpl; intros l Hl.
  - done.
  - apply IH. destruct (apply_op_cases op l) as [[r Hop]|Hsame].
    + by eapply Hstep.
    + by rewrite Hsame.
Qed.

Lemma run_ops_run_calls ops l l' :
  run_ops ops l = Some l' → run_calls ops l = l'.
Proof.
  revert l. induction ops as [|op ops IH]; simpl; intros l.
  - by intros [= <-].
  - destruct (apply_op op l) as [l1 [e|r]] eqn:Hop; [done|]. apply IH.
Qed.

(** C1. Conservation: on the ledger that the constructor makes, and after
    every sequence of calls of [transfer], [transferFrom] (and [approve],
    without which no [transferFrom] succeeds) that all succeed, whoever
    the callers and whatever the arguments, the values of the balances
    map add up to [totalSupply]. *)
Theorem conservation dsk initial_supply mint_address name symbol decimals
    ops l :
  run_ops ops (initialState dsk initial_supply mint_address name symbol
                 decimals) = Some l →
  sum_balances (balances l) = totalSupply l.
Proof.
  intros Hrun.
  apply (run_ops_preserves
           (λ l, sum_balances (balances l) = totalSupply l)) in Hrun; [done| |].
  - intros op l0 l1 r Hop Hl0.
    apply apply_op_ok_sum in Hop as Hsum.
    apply apply_op_ok_fields in Hop as [Hts _]. congruence.
  - rewrite initialState_eq; simpl. apply sum_balances_singleton.
Qed.

(** ** Failures *)

(** The faults of the language never occur: every lookup of the contract
    is guarded by [member] and every subtraction by an [assert]. *)
Lemma transfer_no_fault to amount sk l l' e :
  transfer to amount sk l = (l', inl e) →
  e = InsufficientBalance ∨ e = ArithmeticOverflow.
Proof.
  rewrite transfer_run. cbv zeta.
  case_test; [|intros [= _ <-]; by left].
  case_test; [done|intros [= _ <-]; by right].
Qed.

Lemma transferFrom_no_fault from to amount sk l l' e :
  transferFrom from to amount sk l = (l', inl e) →
  e = NoAllowanceSet ∨ e = InsufficientAllowance ∨
  e = InsufficientBalance ∨ e = ArithmeticOverflow.
Proof.
  rewrite transferFrom_run. cbv zeta.
  destruct (allowance_entry _ _ _) as [a|]; [|intros [= _ <-]; tauto].
  case_test; [|intros [= _ <-]; tauto].
  case_test; [|intros [= _ <-]; tauto].
  case_test; [done|intros [= _ <-]; tauto].
Qed.

(** A failed [assert] comes before the first write: the circuit itself
    stops with the ledger it started from. *)
Lemma transfer_assert_before_write to amount sk l l' e :
  transfer to amount sk l = (l', inl e) → e ≠ ArithmeticOverflow → l' = l.
Proof.
  rewrite transfer_run. cbv zeta.
  case_test; [|by intros [= <- _]].
  case_test; [done|]. by intros [= _ <-].
Qed.

Lemma transferFrom_assert_before_write from to amount sk l l' e :
  transferFrom from to amount sk l = (l', inl e) →
  e ≠ ArithmeticOverflow → l' = l.
Proof.
  rewrite transferFrom_run. cbv zeta.
  destruct (allowance_entry _ _ _) as [a|]; [|by intros [= <- _]].
  case_test; [|by intros [= <- _]].
  case_test; [|by intros [= <- _]].
  case_test; [done|]. by intros [= _ <-].
Qed.

(** The cast fails after the debit was written: the circuit stops with
    the debited ledger, which the failed call then drops. *)
Lemma transfer_overflow_after_debit to amount sk l l' :
  transfer to amount sk l = (l', inl ArithmeticOverflow) →
  l' = debit (compute_address sk) amount l.
Proof.
  rewrite transfer_run. cbv zeta.
  case_test; [|done]. case_test; [done|]. by intros [= <-].
Qed.

(** C2. Failure atomicity: when a call of [transfer] or [transferFrom]
    fails, with whichever error, the ledger after the call is the ledger
    before it.  The error is the one the circuit stopped with, one of
    the four of the contract; a failed [assert] comes before every write
    of the circuit, and the debit a failed cast comes after is not part
    of the ledger the call leaves. *)
Theorem failure_atomicity op l l' e :
  apply_op op l = (l', inl e) →
  l' = l ∧
  (e = InsufficientBalance ∨ e = NoAllowanceSet ∨
   e = InsufficientAllowance ∨ e = ArithmeticOverflow) ∧
  ∃ l1, op_circuit op (op_caller op) l = (l1, inl e) ∧
    (e ≠ ArithmeticOverflow → l1 = l).
Proof.
  unfold apply_op. intros [-> [l1 Hrun]]%call_err. split; [done|].
  destruct op as [sk to amount|sk spender amount|sk from to amount];
    simpl in *.
  - split.
    + apply transfer_no_fault in Hrun. tauto.
    + exists l1. split; [done|]. by eapply transfer_assert_before_write.
  - by rewrite approve_run in Hrun.
  - split.
    + apply transferFrom_no_fault in Hrun. tauto.
    + exists l1. split; [done|]. by eapply transferFrom_assert_before_write.
Qed.

(** ** Reading a ledger after a write *)

Lemma sim_balanceOf_debit from amount l k :
  sim_balanceOf (debit from amount l) k =
    if decide (k = from) then sim_balanceOf l from - amount
    else sim_balanceOf l k.
Proof.
  unfold debit. rewrite !sim_balanceOf_lookup; simpl.
  rewrite lookup_insert. repeat case_decide; by simplify_eq.
Qed.

Lemma sim_balanceOf_credit to amount l k :
  sim_balanceOf (credit to amount l) k =
    if decide (k = to) then sim_balanceOf l to + amount
    else sim_balanceOf l k.
Proof.
  unfold credit. rewrite !sim_balanceOf_lookup; simpl.
  rewrite lookup_insert. repeat case_decide; by simplify_eq.
Qed.

Lemma allowance_entry_set_allowance owner spender v l o s :
  allowance_entry (set_allowance owner spender v l) o s =
    if decide (o = owner ∧ s = spender) then Some v
    else allowance_entry l o s.
Proof.
  unfold allowance_entry, set_allowance; simpl.
  destruct (decide (o = owner)) as [->|Ho].
  - rewrite lookup_insert_eq.
    destruct (decide (s = spender)) as [->|Hs].
    + rewrite lookup_insert_eq. by rewrite decide_True.
    + rewrite lookup_insert_ne by done. rewrite decide_False by tauto.
      by destruct (allowances l !! owner).
  - rewrite lookup_insert_ne by done. by rewrite decide_False by tauto.
Qed.

Lemma sim_allowance_set_allowance owner spender v l o s :
  sim_allowance (set_allowance owner spender v l) o s =
    if decide (o = owner ∧ s = spender) then v else sim_allowance l o s.
Proof.
  rewrite !sim_allowance_entry, allowance_entry_set_allowance.
  by case_decide.
Qed.

(** ** The bound on the supply *)

Lemma supply_bounded_typed l : supply_bounded l → balances_typed l.
Proof.
  intros [Hsum Hts] k v Hk. unfold Uint222 in *.
  pose proof (balance_le_sum l k) as Hle.
  rewrite sim_balanceOf_lookup, Hk in Hle. simpl in Hle. lia.
Qed.

Lemma apply_op_ok_supply_bounded op l l' r :
  apply_op op l = (l', inr r) → supply_bounded l → supply_bounded l'.
Proof.
  intros Hop. unfold supply_bounded.
  rewrite (apply_op_ok_sum _ _ _ _ Hop).
  by destruct (apply_op_ok_fields _ _ _ _ Hop) as [-> _].
Qed.

Lemma reachable_supply_bounded l : reachable l → supply_bounded l.
Proof.
  intros (dsk & supply & mint & name & symbol & decimals & ops & Hty & ->).
  apply (run_calls_preserves supply_bounded).
  - apply apply_op_ok_supply_bounded.
  - rewrite initialState_eq. split; simpl; [|done].
    rewrite sum_balances_singleton. lia.
Qed.

Lemma credited_le_supply l from to amount :
  supply_bounded l → amount ≤ sim_balanceOf l from →
  sim_balanceOf (debit from amount l) to + amount ≤ totalSupply l.
Proof.
  intros [Hsum _] Hle.
  pose proof (balance_le_sum (debit from amount l) to).
  pose proof (sum_balances_debit from amount l Hle). lia.
Qed.

Lemma credited_fits l from to amount :
  supply_bounded l → amount ≤ sim_balanceOf l from →
  Uint222 (sim_balanceOf (debit from amount l) to + amount).
Proof.
  intros Hinv Hle. pose proof (credited_le_supply l from to amount Hinv Hle).
  destruct Hinv as [_ Hts]. unfold Uint222 in *. lia.
Qed.

(** C9. The overflow branch is out of reach.  Every ledger reachable from
    the constructor has balances that add up to at most [totalSupply], a
    [Uint<222>]; on every such ledger, once [from_balance >= amount] has
    passed, the sum [to_balance + amount] that the circuits cast is at
    most [totalSupply], so it fits [Uint<222>], and neither [transfer]
    nor [transferFrom] stops with [ArithmeticOverflow]. *)
Theorem overflow_unreachable l :
  (reachable l → supply_bounded l) ∧
  (supply_bounded l →
   (∀ from to amount,
      amount ≤ sim_balanceOf l from →
      sim_balanceOf (debit from amount l) to + amount ≤ totalSupply l ∧
      Uint222 (sim_balanceOf (debit from amount l) to + amount)) ∧
   (∀ sk to amount,
      snd (transfer to amount sk l) ≠ inl ArithmeticOverflow) ∧
   (∀ sk from to amount,
      snd (transferFrom from to amount sk l) ≠ inl ArithmeticOverflow)).
Proof.
  split; [apply reachable_supply_bounded|]. intros Hinv.
  split_and!.
  - intros from to amount Hle.
    split; [by apply credited_le_supply|by apply credited_fits].
  - intros sk to amount. rewrite transfer_run. cbv zeta.
    case_test; [|done]. case_test; [done|].
    by apply (credited_fits l _ to) in E.
  - intros sk from to amount. rewrite transferFrom_run. cbv zeta.
    destruct (allowance_entry _ _ _) as [a|]; [|done].
    case_test; [|done]. case_test; [|done]. case_test; [done|].
    by apply (credited_fits l _ to) in E0.
Qed.

(** ** [transferFrom] *)

Lemma allowance_entry_Some l owner spender a :
  allowance_entry l owner spender = Some a ↔
  ∃ inner, allowances l !! owner = Some inner ∧ inner !! spender = Some a.
Proof.
  unfold allowance_entry. destruct (allowances l !! owner) as [inner|].
  - split; [eauto|]. by intros (? & [= <-] & ?).
  - split; [done|]. by intros (? & [=] & _).
Qed.

Lemma allowance_entry_None l owner spender :
  allowance_entry l owner spender = None ↔
  allowances l !! owner = None ∨
  ∃ inner, allowances l !! owner = Some inner ∧ inner !! spender = None.
Proof.
  unfold allowance_entry. destruct (allowances l !! owner) as [inner|].
  - split; [eauto|]. by intros [[=]|(? & [= <-] & ?)].
  - split; [eauto|done].
Qed.

(** C3. The checks of [transferFrom] and their order.  With [spender] the
    address of the caller: (1) when [allowances] has no entry for [from],
    or the map of [from] has none for [spender], the call fails with
    [NoAllowanceSet]; (2) otherwise, when the stored allowance is below
    [amount], it fails with [InsufficientAllowance]; (3) otherwise, when
    the balance of [from] (0 when absent) is below [amount], it fails
    with [InsufficientBalance]; (4) otherwise it succeeds, on every
    ledger that the contract reaches and on every ledger whose balances
    add up to at most the supply.  On the other ledgers the outcome after
    the three checks is the outcome of the cast of the credited balance. *)
Theorem transferFrom_check_order l sk from to amount :
  let spender := compute_address sk in
  let outcome := snd (call (transferFrom from to amount) sk l) in
  (allowances l !! from = None ∨
   (∃ inner, allowances l !! from = Some inner ∧ inner !! spender = None) →
   outcome = inl NoAllowanceSet) ∧
  (∀ inner a,
     allowances l !! from = Some inner → inner !! spender = Some a →
     (a < amount → outcome = inl InsufficientAllowance) ∧
     (amount ≤ a → sim_balanceOf l from < amount →
      outcome = inl InsufficientBalance) ∧
     (amount ≤ a → amount ≤ sim_balanceOf l from →
      reachable l ∨ supply_bounded l → outcome = inr tt) ∧
     (amount ≤ a → amount ≤ sim_balanceOf l from →
      outcome =
        if fits_uint222 (sim_balanceOf (debit from amount l) to + amount)
        then inr tt else inl ArithmeticOverflow)).
Proof.
  cbv zeta. unfold call. rewrite transferFrom_run. cbv zeta. split.
  - intros Hnone%allowance_entry_None. by rewrite Hnone.
  - intros inner a Hin Ha.
    assert (allowance_entry l from (compute_address sk) = Some a) as ->.
    { apply allowance_entry_Some. eauto. }
    split_and!.
    + intros Hlt. case_test; [lia|done].
    + intros Hle Hlt. case_test; [|lia]. case_test; [lia|done].
    + intros Hle Hle' Hinv. case_test; [|lia]. case_test; [|lia].
      case_test; [done|]. destruct E1.
      apply (credited_fits l from to); [|done].
      destruct Hinv as [Hreach|Hinv]; [|done].
      by apply reachable_supply_bounded.
    + intros Hle Hle'. case_test; [|lia]. case_test; [|lia].
      change (sim_balanceOf
                (debit from amount
                   (set_allowance from (compute_address sk) (a - amount) l)))
        with (sim_balanceOf (debit from amount l)).
      by destruct (fits_uint222 _).
Qed.

(** C4. Postcondition of [transferFrom].  When a call by the holder of
    [sk] succeeds and [from ≠ to], the allowance of the caller on [from]
    and the balance of [from] have gone down by exactly [amount], and the
    balance of [to] has gone up by exactly [amount].  In particular,
    after [approve(spender, 400)] by the owner, a successful
    [transferFrom(owner, to, 250)] by the spender leaves the allowance at
    150 and the balance of [to] 250 above what it was. *)
Theorem transferFrom_postcondition :
  (∀ l sk from to amount l',
     call (transferFrom from to amount) sk l = (l', inr tt) → from ≠ to →
     let spender := compute_address sk in
     sim_allowance l' from spender + amount = sim_allowance l from spender ∧
     sim_balanceOf l' from + amount = sim_balanceOf l from ∧
     sim_balanceOf l' to = sim_balanceOf l to + amount) ∧
  (∀ l owner_sk spender_sk to l1 l2,
     let owner := compute_address owner_sk in
     let spender := compute_address spender_sk in
     call (approve spender 400) owner_sk l = (l1, inr tt) →
     call (transferFrom owner to 250) spender_sk l1 = (l2, inr tt) →
     owner ≠ to →
     sim_allowance l1 owner spender = 400 ∧
     sim_allowance l2 owner spender = 150 ∧
     sim_balanceOf l2 to = sim_balanceOf l to + 250).
Proof.
  assert (Hpost : ∀ l sk from to amount l',
     call (transferFrom from to amount) sk l = (l', inr tt) → from ≠ to →
     sim_allowance l' from (compute_address sk) + amount =
       sim_allowance l from (compute_address sk) ∧
     sim_balanceOf l' from + amount = sim_balanceOf l from ∧
     sim_balanceOf l' to = sim_balanceOf l to + amount).
  { intros l sk from to amount l' Hcall Hne.
    apply call_transferFrom_ok in Hcall as (a & Ha & Hle & Hle' & _ & ->).
    rewrite !sim_balanceOf_credit, !sim_balanceOf_debit.
    rewrite decide_False, decide_True, decide_True, decide_False by done.
    split_and!; [|by apply N.sub_add|done].
    change (sim_allowance (set_allowance from (compute_address sk)
                             (a - amount) l) from (compute_address sk)
            + amount = sim_allowance l from (compute_address sk)).
    rewrite sim_allowance_set_allowance, decide_True by done.
    rewrite sim_allowance_entry, Ha. simpl. lia. }
  split; [exact Hpost|].
  intros l owner_sk spender_sk to l1 l2 owner spender Happ Hcall Hne.
  rewrite call_approve_ok in Happ. injection Happ as <-.
  destruct (Hpost _ _ _ _ _ _ Hcall Hne) as (Hal & _ & Hto).
  fold owner spender in Hal |- *.
  assert (sim_allowance (set_allowance owner spender 400 l) owner spender
          = 400) as H400.
  { by rewrite sim_allowance_set_allowance, decide_True. }
  rewrite H400 in Hal |- *. split_and!; [done|lia|done].
Qed.

(** ** [approve] *)

(** C5. [approve(spender, amount)] succeeds for every caller, ledger and
    amount, and sets the allowance of the pair (caller, spender) to
    [amount] whatever it was before; every other pair keeps its entry,
    so its allowance.  Approving [A] and then [B] leaves the allowance at
    [B], whatever [A]. *)
Theorem approve_overwrites l sk spender A B :
  let owner := compute_address sk in
  ∃ l1 l2,
    call (approve spender A) sk l = (l1, inr tt) ∧
    sim_allowance l1 owner spender = A ∧
    (∀ o s, (o, s) ≠ (owner, spender) →
       allowance_entry l1 o s = allowance_entry l o s ∧
       sim_allowance l1 o s = sim_allowance l o s) ∧
    call (approve spender B) sk l1 = (l2, inr tt) ∧
    sim_allowance l2 owner spender = B ∧
    (∀ o s, (o, s) ≠ (owner, spender) →
       allowance_entry l2 o s = allowance_entry l o s ∧
       sim_allowance l2 o s = sim_allowance l o s).
Proof.
  intros owner. eexists _, _.
  rewrite !call_approve_ok. fold owner.
  assert (Hother : ∀ v l0 o s, (o, s) ≠ (owner, spender) →
            allowance_entry (set_allowance owner spender v l0) o s =
              allowance_entry l0 o s).
  { intros v l0 o s Hne. rewrite allowance_entry_set_allowance.
    rewrite decide_False; [done|]. intros [-> ->]. done. }
  split_and!; try done.
  - by rewrite sim_allowance_set_allowance, decide_True.
  - intros o s Hne. by rewrite !sim_allowance_entry, Hother.
  - by rewrite sim_allowance_set_allowance, decide_True.
  - intros o s Hne. by rewrite !sim_allowance_entry, !Hother.
Qed.

(** ** Transfers to oneself and of nothing *)

Lemma balances_typed_balanceOf l k : balances_typed l → Uint222 (sim_balanceOf l k).
Proof.
  intros Hty. rewrite sim_balanceOf_lookup.
  destruct (balances l !! k) as [v|] eqn:Hk; simpl.
  - by apply (Hty k).
  - unfold Uint222. lia.
Qed.

(** C6. Self-transfer.  On every ledger with [Uint<222>] balances, for
    every caller with address [from] and every [X] up to the balance of
    [from], [transfer(from, X)] succeeds and the balance of [from] is
    what it was.  A successful [transferFrom(a, a, X)] also leaves the
    balance of [a] as it was, and takes [X] off the allowance of the
    caller on [a]. *)
Theorem self_transfer_identity l sk X :
  let from := compute_address sk in
  (balances_typed l → X ≤ sim_balanceOf l from →
   ∃ l', call (transfer from X) sk l = (l', inr tt) ∧
         sim_balanceOf l' from = sim_balanceOf l from) ∧
  (∀ a l', call (transferFrom a a X) sk l = (l', inr tt) →
     sim_balanceOf l' a = sim_balanceOf l a ∧
     sim_allowance l' a from + X = sim_allowance l a from).
Proof.
  intros from. split.
  - intros Hty Hle.
    assert (sim_balanceOf (debit from X l) from + X = sim_balanceOf l from)
      as Hback.
    { rewrite sim_balanceOf_debit, decide_True by done. by apply N.sub_add. }
    exists (credit from X (debit from X l)). split.
    + apply call_ok. rewrite transfer_run. cbv zeta. fold from.
      case_test; [|lia]. case_test; [done|].
      destruct E0. rewrite Hback. by apply balances_typed_balanceOf.
    + by rewrite sim_balanceOf_credit, decide_True.
  - intros a l' Hcall.
    apply call_transferFrom_ok in Hcall as (v & Hv & Hle & Hle' & _ & ->).
    fold from in Hv |- *. split.
    + rewrite sim_balanceOf_credit, decide_True by done.
      rewrite sim_balanceOf_debit, decide_True by done.
      by apply N.sub_add.
    + change (sim_allowance (set_allowance a from (v - X) l) a from + X
              = sim_allowance l a from).
      rewrite sim_allowance_set_allowance, decide_True by done.
      rewrite sim_allowance_entry, Hv. simpl. lia.
Qed.

(** C7, as the contract runs it.  On every ledger with [Uint<222>]
    balances, [transfer(to, 0)] succeeds for every caller and every
    [to]; the supply, the metadata, the allowances and every balance read
    are as before.  The balances map is as before except that the caller
    and [to] now have entries, holding the balances they had (0 for an
    address that had no entry); the ledger as a whole is unchanged when
    both had entries already. *)
Theorem zero_transfer_observations l sk to :
  let from := compute_address sk in
  balances_typed l →
  ∃ l', call (transfer to 0) sk l = (l', inr tt) ∧
    (∀ a, sim_balanceOf l' a = sim_balanceOf l a) ∧
    (∀ o s, sim_allowance l' o s = sim_allowance l o s) ∧
    allowances l' = allowances l ∧ totalSupply l' = totalSupply l ∧
    tokenName l' = tokenName l ∧ tokenSymbol l' = tokenSymbol l ∧
    tokenDecimals l' = tokenDecimals l ∧
    balances l' =
      <[to := sim_balanceOf l to]>
        (<[from := sim_balanceOf l from]> (balances l)) ∧
    (is_Some (balances l !! from) → is_Some (balances l !! to) → l' = l).
Proof.
  intros from Hty.
  assert (Hsame : ∀ a, sim_balanceOf (debit from 0 l) a = sim_balanceOf l a).
  { intros a. rewrite sim_balanceOf_debit. case_decide; [subst|done].
    apply N.sub_0_r. }
  exists (credit to 0 (debit from 0 l)). split.
  { apply call_ok. rewrite transfer_run. cbv zeta. fold from.
    case_test; [|lia]. case_test; [done|].
    destruct E0. rewrite Hsame, N.add_0_r.
    by apply balances_typed_balanceOf. }
  assert (Hbal : balances (credit to 0 (debit from 0 l)) =
            <[to := sim_balanceOf l to]>
              (<[from := sim_balanceOf l from]> (balances l))).
  { unfold credit. rewrite Hsame, N.add_0_r. unfold debit; simpl.
    by rewrite N.sub_0_r. }
  split_and!; try done.
  - intros a. rewrite sim_balanceOf_credit, Hsame, N.add_0_r.
    case_decide; by subst.
  - intros [vf Hf] [vt Ht].
    assert (balances (credit to 0 (debit from 0 l)) = balances l) as Heq.
    { rewrite Hbal, !sim_balanceOf_lookup, Hf, Ht. simpl.
      rewrite (insert_id (balances l) from vf) by done.
      by apply insert_id. }
    destruct l; simpl in *. unfold credit, debit, set_balances in *.
    simpl in *. by rewrite Heq.
Qed.

(** ** The constructor, again *)

(** C8. Postcondition of the constructor: the ledger it makes has the
    given supply as [totalSupply] and as the balance of [mint_address],
    balance 0 at every other address, no allowance at all, and the given
    name, symbol and decimals; the constructor does not fail. *)
Theorem constructor_postcondition dsk initial_supply mint_address
    name symbol decimals :
  let l := initialState dsk initial_supply mint_address name symbol
             decimals in
  call (constructor initial_supply mint_address name symbol decimals)
    dsk default_ledger = (l, inr tt) ∧
  totalSupply l = initial_supply ∧
  sim_balanceOf l mint_address = initial_supply ∧
  (∀ a, a ≠ mint_address → sim_balanceOf l a = 0) ∧
  allowances l = ∅ ∧
  (∀ o s, sim_allowance l o s = 0) ∧
  tokenName l = name ∧ tokenSymbol l = symbol ∧ tokenDecimals l = decimals.
Proof.
  cbv zeta. rewrite initialState_eq. split_and!; try done.
  - rewrite sim_balanceOf_lookup; simpl. by rewrite lookup_singleton_eq.
  - intros a Hne. rewrite sim_balanceOf_lookup; simpl.
    by rewrite lookup_singleton_ne.
Qed.

(** ** Allowances that were never set *)

Lemma apply_op_ok_no_entry owner spender op l l' r :
  apply_op op l = (l', inr r) → ¬ approves owner spender op →
  allowance_entry l owner spender = None →
  allowance_entry l' owner spender = None.
Proof.
  unfold apply_op.
  destruct op as [sk to amount|sk spender' amount|sk from to amount]; simpl.
  - by intros (_ & _ & ->)%call_transfer_ok.
  - rewrite call_approve_ok. intros [= <-] Hne Hnone.
    rewrite allowance_entry_set_allowance, decide_False; [done|].
    intros [-> ->]. by apply Hne.
  - intros (a & Ha & _ & _ & _ & ->)%call_transferFrom_ok _ Hnone.
    change (allowance_entry (set_allowance from (compute_address sk)
                               (a - amount) l) owner spender = None).
    rewrite allowance_entry_set_allowance. case_decide as Heq; [|done].
    destruct Heq as [-> ->]. congruence.
Qed.

Lemma never_approved_no_entry owner spender ops :
  Forall (λ op, ¬ approves owner spender op) ops →
  ∀ l, allowance_entry l owner spender = None →
       allowance_entry (run_calls ops l) owner spender = None.
Proof.
  induction 1 as [|op ops Hop _ IH]; simpl; intros l Hnone; [done|].
  apply IH. destruct (apply_op_cases op l) as [[r Hstep]|Hsame].
  - by eapply apply_op_ok_no_entry.
  - by rewrite Hsame.
Qed.

(** C10. An allowance of zero is not the absence of an allowance.  On a
    ledger reached from the constructor by calls, failed or not, none of
    which is an [approve] of [spender] by [owner],
    [transferFrom(owner, to, 0)] by the spender fails with
    [NoAllowanceSet], as it does whenever the pair has no entry; once the
    owner has called [approve(spender, 0)], the same call succeeds, and
    every balance and every allowance reads the same after it as before
    it. *)
Theorem zero_allowance_is_not_no_allowance :
  (∀ dsk initial_supply mint_address name symbol decimals ops
     owner spender_sk to,
     let spender := compute_address spender_sk in
     let l := run_calls ops (initialState dsk initial_supply mint_address
                               name symbol decimals) in
     Forall (λ op, ¬ approves owner spender op) ops →
     call (transferFrom owner to 0) spender_sk l = (l, inl NoAllowanceSet)) ∧
  (∀ l owner spender_sk to,
     allowance_entry l owner (compute_address spender_sk) = None →
     call (transferFrom owner to 0) spender_sk l = (l, inl NoAllowanceSet)) ∧
  (∀ l owner_sk spender_sk to,
     let owner := compute_address owner_sk in
     let spender := compute_address spender_sk in
     balances_typed l →
     ∃ l1 l2,
       call (approve spender 0) owner_sk l = (l1, inr tt) ∧
       call (transferFrom owner to 0) spender_sk l1 = (l2, inr tt) ∧
       (∀ a, sim_balanceOf l2 a = sim_balanceOf l1 a) ∧
       (∀ o s, sim_allowance l2 o s = sim_allowance l1 o s)).
Proof.
  assert (Hnone : ∀ l owner spender_sk to,
     allowance_entry l owner (compute_address spender_sk) = None →
     call (transferFrom owner to 0) spender_sk l = (l, inl NoAllowanceSet)).
  { intros l owner spender_sk to Hnone. unfold call.
    rewrite transferFrom_run. cbv zeta. by rewrite Hnone. }
  split_and!; [|exact Hnone|].
  - intros dsk supply mint name symbol decimals ops owner spender_sk to
      spender l Hops.
    apply Hnone. apply never_approved_no_entry; [done|].
    by rewrite initialState_eq.
  - intros l owner_sk spender_sk to owner spender Hty.
    set (l1 := set_allowance owner spender 0 l).
    assert (Hsame : ∀ a, sim_balanceOf (debit owner 0 l1) a
                         = sim_balanceOf l1 a).
    { intros a. rewrite sim_balanceOf_debit. case_decide; [subst|done].
      apply N.sub_0_r. }
    assert (Hentry : allowance_entry l1 owner spender = Some 0).
    { unfold l1. by rewrite allowance_entry_set_allowance, decide_True. }
    exists l1, (credit to 0 (debit owner 0 (set_allowance owner spender 0 l1))).
    split_and!.
    + apply call_approve_ok.
    + apply call_ok. rewrite transferFrom_run. cbv zeta.
      fold spender. rewrite Hentry. simpl.
      case_test; [|lia]. case_test; [done|]. destruct E0.
      change (Uint222 (sim_balanceOf (debit owner 0 l1) to + 0)).
      rewrite Hsame, N.add_0_r. by apply (balances_typed_balanceOf l).
    + intros a. rewrite sim_balanceOf_credit.
      change (sim_balanceOf (debit owner 0 (set_allowance owner spender 0 l1)))
        with (sim_balanceOf (debit owner 0 l1)).
      rewrite !Hsame, N.add_0_r. case_decide; by subst.
    + intros o s.
      change (sim_allowance (set_allowance owner spender 0 l1) o s
              = sim_allowance l1 o s).
      rewrite sim_allowance_set_allowance. case_decide as Heq; [|done].
      destruct Heq as [-> ->]. by rewrite sim_allowance_entry, Hentry.
Qed.

(** ** The read circuits *)

(** X1. The circuits [balanceOf], [allowance] and [getTotalSupply] never
    fail and leave the ledger as it is, whatever the ledger and the
    addresses (a missing key reads as 0); what they return is what the
    accessors of the simulator compute from the ledger. *)
Theorem read_circuits_agree l sk :
  (∀ owner, call (balanceOf owner) sk l = (l, inr (sim_balanceOf l owner))) ∧
  (∀ owner spender,
     call (allowance owner spender) sk l =
       (l, inr (sim_allowance l owner spender))) ∧
  call getTotalSupply sk l = (l, inr (totalSupply l)).
Proof.
  split_and!.
  - intros owner. apply call_ok, balanceOf_run.
  - intros owner spender. apply call_ok, allowance_run.
  - done.
Qed.

(** ** Invariants of the ledgers the contract reaches *)

Lemma run_calls_fields ops l :
  totalSupply (run_calls ops l) = totalSupply l ∧
  tokenName (run_calls ops l) = tokenName l ∧
  tokenSymbol (run_calls ops l) = tokenSymbol l ∧
  tokenDecimals (run_calls ops l) = tokenDecimals l.
Proof.
  apply (run_calls_preserves
           (λ l', totalSupply l' = totalSupply l ∧
                  tokenName l' = tokenName l ∧
                  tokenSymbol l' = tokenSymbol l ∧
                  tokenDecimals l' = tokenDecimals l)); [|done].
  intros op l1 l2 r Hop (<- & <- & <- & <-).
  by apply apply_op_ok_fields in Hop.
Qed.

(** X2. No call mints, burns or renames: after every sequence of calls,
    failed or not, [totalSupply] and the three metadata fields are the
    arguments the constructor was given. *)
Theorem supply_and_metadata_fixed dsk initial_supply mint_address name symbol
    decimals ops :
  let l := run_calls ops (initialState dsk initial_supply mint_address name
                            symbol decimals) in
  totalSupply l = initial_supply ∧ tokenName l = name ∧
  tokenSymbol l = symbol ∧ tokenDecimals l = decimals.
Proof.
  cbv zeta.
  destruct (run_calls_fields ops
              (initialState dsk initial_supply mint_address name symbol
                 decimals)) as (-> & -> & -> & ->).
  by rewrite initialState_eq.
Qed.

Lemma reachable_conserved l :
  reachable l → sum_balances (balances l) = totalSupply l.
Proof.
  intros (dsk & supply & mint & name & symbol & decimals & ops & _ & ->).
  apply (run_calls_preserves
           (λ l, sum_balances (balances l) = totalSupply l)).
  - intros op l l' r Hop Hl.
    rewrite (apply_op_ok_sum _ _ _ _ Hop).
    by destruct (apply_op_ok_fields _ _ _ _ Hop) as [-> _].
  - rewrite initialState_eq; simpl. apply sum_balances_singleton.
Qed.

(** X3. On every ledger reachable from a constructor called with a
    [Uint<222>] supply, through calls of any outcome, the balances add up
    to [totalSupply], so that no address holds more than [totalSupply]
    and every balance is a [Uint<222>]. *)
Theorem reachable_balances_bounded l :
  reachable l →
  sum_balances (balances l) = totalSupply l ∧
  ∀ a, sim_balanceOf l a ≤ totalSupply l ∧ Uint222 (sim_balanceOf l a).
Proof.
  intros Hreach. split; [by apply reachable_conserved|]. intros a.
  pose proof (balance_le_sum l a) as Hle.
  destruct (reachable_supply_bounded l Hreach) as [Hsum Hts].
  unfold Uint222 in *. split; lia.
Qed.

(** ** [transfer] *)

(** X4. [transfer(to, amount)] succeeds exactly when the caller holds at
    least [amount]: on a ledger whose balances add up to at most the
    supply it succeeds when [amount] is at most the balance of the
    caller, and on every ledger it fails with [InsufficientBalance], the
    ledger unchanged, when [amount] is above it. *)
Theorem transfer_outcome l sk to amount :
  let from := compute_address sk in
  (supply_bounded l → amount ≤ sim_balanceOf l from →
   ∃ l', call (transfer to amount) sk l = (l', inr tt)) ∧
  (sim_balanceOf l from < amount →
   call (transfer to amount) sk l = (l, inl InsufficientBalance)).
Proof.
  intros from. split.
  - intros Hinv Hle. exists (credit to amount (debit from amount l)).
    apply call_ok. rewrite transfer_run. cbv zeta. fold from.
    case_test; [|lia]. case_test; [done|]. destruct E0.
    by apply credited_fits.
  - intros Hlt. unfold call. rewrite transfer_run. cbv zeta. fold from.
    case_test; [lia|done].
Qed.

(** X5. Postcondition of [transfer].  After a successful call, when the
    caller and [to] differ, the balance of the caller is down by
    [amount] and the balance of [to] up by [amount]; the balance of every
    other address, the allowances, the supply and the metadata are as
    before. *)
Theorem transfer_postcondition l sk to amount l' :
  call (transfer to amount) sk l = (l', inr tt) →
  let from := compute_address sk in
  (from ≠ to →
   sim_balanceOf l' from + amount = sim_balanceOf l from ∧
   sim_balanceOf l' to = sim_balanceOf l to + amount) ∧
  (∀ a, a ≠ from → a ≠ to → sim_balanceOf l' a = sim_balanceOf l a) ∧
  allowances l' = allowances l ∧ totalSupply l' = totalSupply l ∧
  tokenName l' = tokenName l ∧ tokenSymbol l' = tokenSymbol l ∧
  tokenDecimals l' = tokenDecimals l.
Proof.
  intros (Hle & _ & ->)%call_transfer_ok from. fold from in Hle.
  split_and!; try done.
  - intros Hne. rewrite !sim_balanceOf_credit, !sim_balanceOf_debit.
    rewrite decide_False, decide_True, decide_True, decide_False by done.
    split; [by apply N.sub_add|done].
  - intros a Hf Ht. rewrite sim_balanceOf_credit, decide_False by done.
    by rewrite sim_balanceOf_debit, decide_False.
Qed.

(** ** [transferFrom] and the allowances *)

Lemma allowance_entry_moved to from a a' l o s :
  allowance_entry (credit to a (debit from a' l)) o s = allowance_entry l o s.
Proof. reflexivity. Qed.

Lemma sim_allowance_moved to from a a' l o s :
  sim_allowance (credit to a (debit from a' l)) o s = sim_allowance l o s.
Proof. reflexivity. Qed.

(** X6. What a successful [transferFrom(from, to, amount)] leaves alone:
    the balance of every address other than [from] and [to], the entry
    of every allowance pair other than ([from], caller), and the supply.
    The entry of ([from], caller) existed, covered [amount], and is still
    there, lowered by [amount]: an allowance spent down to 0 stays as an
    entry of 0. *)
Theorem transferFrom_frame l sk from to amount l' :
  call (transferFrom from to amount) sk l = (l', inr tt) →
  let spender := compute_address sk in
  (∀ a, a ≠ from → a ≠ to → sim_balanceOf l' a = sim_balanceOf l a) ∧
  (∀ o s, (o, s) ≠ (from, spender) →
     allowance_entry l' o s = allowance_entry l o s) ∧
  (∃ v, allowance_entry l from spender = Some v ∧ amount ≤ v ∧
        allowance_entry l' from spender = Some (v - amount)) ∧
  totalSupply l' = totalSupply l.
Proof.
  intros (v & Hv & Hle & _ & _ & ->)%call_transferFrom_ok spender.
  fold spender in Hv. split_and!; [| | |done].
  - intros a Hf Ht. rewrite sim_balanceOf_credit, decide_False by done.
    by rewrite sim_balanceOf_debit, decide_False.
  - intros o s Hne.
    rewrite allowance_entry_moved, allowance_entry_set_allowance.
    rewrite decide_False; [done|]. by intros [-> ->].
  - exists v. split_and!; [done..|].
    rewrite allowance_entry_moved, allowance_entry_set_allowance.
    by rewrite decide_True.
Qed.

(** X7. [approve] followed by [transferFrom].  On a ledger whose balances
    add up to at most the supply, after [approve(spender, A)] by the
    owner, whatever the balance of the owner and whatever was approved
    before, [transferFrom(owner, to, amount)] by the spender fails with
    [InsufficientAllowance] when [amount > A], otherwise with
    [InsufficientBalance] when [amount] is above the balance of the
    owner, and otherwise succeeds. *)
Theorem approve_then_transferFrom l owner_sk spender_sk to A amount :
  let owner := compute_address owner_sk in
  let spender := compute_address spender_sk in
  supply_bounded l →
  ∃ l1, call (approve spender A) owner_sk l = (l1, inr tt) ∧
    snd (call (transferFrom owner to amount) spender_sk l1) =
      if A <? amount then inl InsufficientAllowance
      else if sim_balanceOf l owner <? amount then inl InsufficientBalance
      else inr tt.
Proof.
  intros owner spender Hinv. eexists. split; [apply call_approve_ok|].
  fold owner spender. unfold call. rewrite transferFrom_run. cbv zeta.
  fold spender. rewrite allowance_entry_set_allowance, decide_True by done.
  change (sim_balanceOf (set_allowance owner spender A l) owner)
    with (sim_balanceOf l owner).
  rewrite !N.ltb_antisym.
  case_test; [|done]. case_test; [|done]. case_test; [done|].
  destruct E1. by apply (credited_fits l owner to).
Qed.

(** X8. Authorization.  When a successful call lowers the balance of an
    address [a], the call is either a [transfer] by the holder of the
    key of [a], or a [transferFrom] out of [a] by a caller whose stored
    allowance on [a] covers the amount; and the balance goes down by at
    most the amount of the call. *)
Theorem debit_is_authorized op l l' r a :
  apply_op op l = (l', inr r) →
  sim_balanceOf l' a < sim_balanceOf l a →
  sim_balanceOf l a ≤ sim_balanceOf l' a + op_amount op ∧
  ((∃ sk to amount,
      op = OpTransfer sk to amount ∧ compute_address sk = a) ∨
   (∃ sk to amount v,
      op = OpTransferFrom sk a to amount ∧
      allowance_entry l a (compute_address sk) = Some v ∧ amount ≤ v)).
Proof.
  assert (Hmove : ∀ from to amount l0,
            sim_balanceOf (credit to amount (debit from amount l0)) a
              < sim_balanceOf l0 a →
            amount ≤ sim_balanceOf l0 from →
            a = from ∧
            sim_balanceOf l0 a ≤
              sim_balanceOf (credit to amount (debit from amount l0)) a
                + amount).
  { intros from to amount l0.
    rewrite sim_balanceOf_credit, !sim_balanceOf_debit.
    repeat case_decide; subst; intros Hlt Hle; (split; [done || lia|lia]). }
  unfold apply_op.
  destruct op as [sk to amount|sk spender amount|sk from to amount]; simpl.
  - intros (Hle & _ & ->)%call_transfer_ok Hlt.
    destruct (Hmove _ _ _ _ Hlt Hle) as [-> Hbound]. split; [done|].
    left. eauto.
  - rewrite call_approve_ok. intros [= <-] Hlt.
    change (sim_balanceOf l a < sim_balanceOf l a) in Hlt. lia.
  - intros (v & Hv & Hlev & Hle & _ & ->)%call_transferFrom_ok Hlt.
    destruct (Hmove from to amount
                (set_allowance from (compute_address sk) (v - amount) l)
                Hlt Hle) as [-> Hbound].
    split; [done|]. right. eauto 10.
Qed.

Lemma apply_op_ok_allowance owner spender op l l' r :
  apply_op op l = (l', inr r) → ¬ approves owner spender op →
  sim_allowance l' owner spender + spent_by owner spender op =
    sim_allowance l owner spender.
Proof.
  unfold apply_op.
  destruct op as [sk to amount|sk spender' amount|sk from to amount]; simpl.
  - intros (_ & _ & ->)%call_transfer_ok _.
    rewrite sim_allowance_moved. lia.
  - rewrite call_approve_ok. intros [= <-] Hne.
    rewrite sim_allowance_set_allowance, decide_False; [lia|].
    intros [-> ->]. by apply Hne.
  - intros (v & Hv & Hlev & _ & _ & ->)%call_transferFrom_ok _.
    rewrite sim_allowance_moved, sim_allowance_set_allowance.
    destruct (decide (owner = from ∧ spender = compute_address sk))
      as [[-> ->]|Hne].
    + rewrite decide_True by done. rewrite sim_allowance_entry, Hv. simpl.
      lia.
    + rewrite decide_False by (intros [-> <-]; by apply Hne). lia.
Qed.

(** X9. An allowance is a budget.  Along a sequence of successful calls
    in which the owner never calls [approve] for the spender, the
    allowance of the pair goes down by exactly the amounts of the
    [transferFrom] calls of the spender out of the owner: what the
    spender moved and what is left add up to the allowance at the
    start, so the spender never moves more than it. *)
Theorem allowance_is_a_budget owner spender ops l l' :
  run_ops ops l = Some l' →
  Forall (λ op, ¬ approves owner spender op) ops →
  sim_allowance l' owner spender + total_spent owner spender ops =
    sim_allowance l owner spender.
Proof.
  intros Hrun Hops. revert l Hrun.
  induction Hops as [|op ops Hop _ IH]; simpl; intros l.
  - intros [= <-]. lia.
  - destruct (apply_op op l) as [l1 [e|r]] eqn:Hstep; [done|].
    intros Hrun. specialize (IH _ Hrun).
    pose proof (apply_op_ok_allowance owner spender _ _ _ _ Hstep Hop). lia.
Qed.

(** ** Transfers that compose *)

Lemma ledger_eq_balances l1 l2 :
  tokenName l1 = tokenName l2 → tokenSymbol l1 = tokenSymbol l2 →
  tokenDecimals l1 = tokenDecimals l2 → totalSupply l1 = totalSupply l2 →
  allowances l1 = allowances l2 → balances l1 = balances l2 → l1 = l2.
Proof. destruct l1, l2; simpl. by intros -> -> -> -> -> ->. Qed.

Lemma balances_credit_lookup to x l k :
  balances (credit to x l) !! k =
    if decide (k = to) then Some (sim_balanceOf l to + x)
    else balances l !! k.
Proof.
  unfold credit; simpl. rewrite lookup_insert.
  repeat case_decide; by simplify_eq.
Qed.

Lemma balances_debit_lookup from x l k :
  balances (debit from x l) !! k =
    if decide (k = from) then Some (sim_balanceOf l from - x)
    else balances l !! k.
Proof.
  unfold debit; simpl. rewrite lookup_insert.
  repeat case_decide; by simplify_eq.
Qed.

Lemma move_twice from to a b l :
  from ≠ to → a + b ≤ sim_balanceOf l from →
  credit to b (debit from b (credit to a (debit from a l))) =
    credit to (a + b) (debit from (a + b) l).
Proof.
  intros Hne Hle. apply ledger_eq_balances; try done.
  apply map_eq. intros k.
  rewrite !balances_credit_lookup, !balances_debit_lookup,
    !balances_credit_lookup, !balances_debit_lookup.
  rewrite !sim_balanceOf_debit, !sim_balanceOf_credit, !sim_balanceOf_debit.
  repeat case_decide; subst; try done; f_equal; lia.
Qed.

(** X10. Transfers add up.  When the caller and [to] differ, transferring
    [a] and then [b] to [to] succeeds exactly when transferring [a + b]
    at once does, and both leave the same ledger. *)
Theorem transfer_additive l sk to a b l2 :
  compute_address sk ≠ to →
  (∃ l1, call (transfer to a) sk l = (l1, inr tt) ∧
         call (transfer to b) sk l1 = (l2, inr tt)) ↔
  call (transfer to (a + b)) sk l = (l2, inr tt).
Proof.
  set (from := compute_address sk). intros Hne.
  assert (Hto : ∀ x, sim_balanceOf (debit from x l) to = sim_balanceOf l to).
  { intros x. by rewrite sim_balanceOf_debit, decide_False. }
  assert (Hfrom1 : sim_balanceOf (credit to a (debit from a l)) from
                   = sim_balanceOf l from - a).
  { rewrite sim_balanceOf_credit, decide_False by done.
    by rewrite sim_balanceOf_debit, decide_True. }
  assert (Hto1 : sim_balanceOf
                   (debit from b (credit to a (debit from a l))) to
                 = sim_balanceOf l to + a).
  { rewrite sim_balanceOf_debit, decide_False by done.
    rewrite sim_balanceOf_credit, decide_True by done. by rewrite Hto. }
  split.
  - intros (l1 & (Ha & Hfa & ->)%call_transfer_ok
               & (Hb & Hfb & ->)%call_transfer_ok).
    fold from in Ha, Hfa, Hb, Hfb |- *.
    rewrite Hfrom1 in Hb. rewrite Hto1 in Hfb.
    apply call_ok. rewrite transfer_run. cbv zeta. fold from.
    case_test; [|lia]. case_test.
    + by rewrite move_twice by (done || lia).
    + destruct E0. rewrite Hto. unfold Uint222 in *. lia.
  - intros (Hab & Hfab & ->)%call_transfer_ok.
    fold from in Hab, Hfab |- *. rewrite Hto in Hfab.
    exists (credit to a (debit from a l)). split.
    + apply call_ok. rewrite transfer_run. cbv zeta. fold from.
      case_test; [|lia]. case_test; [done|]. destruct E0.
      rewrite Hto. unfold Uint222 in *. lia.
    + apply call_ok. rewrite transfer_run. cbv zeta. fold from.
      rewrite Hfrom1, Hto1. case_test; [|lia]. case_test.
      * by rewrite move_twice by (done || lia).
      * destruct E0. unfold Uint222 in *. lia.
Qed.

(** X11. There and back.  On a ledger with [Uint<222>] balances, after a
    successful [transfer(to, amount)], the holder of the key of [to] can
    always send [amount] back to the first caller, and then every
    balance reads as it did at the start. *)
Theorem transfer_there_and_back l sk_a sk_b amount l1 :
  let from := compute_address sk_a in
  let to := compute_address sk_b in
  balances_typed l →
  call (transfer to amount) sk_a l = (l1, inr tt) →
  ∃ l2, call (transfer from amount) sk_b l1 = (l2, inr tt) ∧
        ∀ a, sim_balanceOf l2 a = sim_balanceOf l a.
Proof.
  intros from to Hty (Hle & Hfit & ->)%call_transfer_ok.
  fold from in Hle, Hfit.
  set (l1 := credit to amount (debit from amount l)).
  assert (Hbal2 : ∀ a, sim_balanceOf (credit from amount (debit to amount l1)) a
                       = sim_balanceOf l a).
  { intros a. unfold l1.
    rewrite !sim_balanceOf_credit, !sim_balanceOf_debit,
      !sim_balanceOf_credit, !sim_balanceOf_debit.
    repeat case_decide; subst; try done; lia. }
  exists (credit from amount (debit to amount l1)). split; [|done].
  apply call_ok. rewrite transfer_run. cbv zeta. fold to.
  case_test.
  - case_test; [done|]. destruct E0.
    pose proof (Hbal2 from) as Hf.
    rewrite sim_balanceOf_credit, decide_True in Hf by done.
    fold from l1. rewrite Hf. by apply balances_typed_balanceOf.
  - fold from l1 in E. unfold l1 in E.
    rewrite sim_balanceOf_credit, decide_True in E by done. lia.
Qed.

(** X12. A successful [transferFrom(from, to, amount)] moves the tokens
    exactly as [transfer(to, amount)] by the holder of the key of [from]
    would: that call succeeds too, and leaves the same balances map. *)
Theorem transferFrom_moves_like_transfer l sk_spender sk_owner to amount l2 :
  let from := compute_address sk_owner in
  call (transferFrom from to amount) sk_spender l = (l2, inr tt) →
  ∃ l1, call (transfer to amount) sk_owner l = (l1, inr tt) ∧
        balances l1 = balances l2 ∧ allowances l1 = allowances l.
Proof.
  intros from (v & _ & _ & Hle & Hfit & ->)%call_transferFrom_ok.
  exists (credit to amount (debit from amount l)). split; [|done].
  apply call_ok. rewrite transfer_run. cbv zeta. fold from.
  case_test; [|lia]. case_test; [done|]. by destruct E0.
Qed.

(** ** Entries and typing *)

Lemma apply_op_ok_entries op l l' r :
  apply_op op l = (l', inr r) →
  (∀ a, is_Some (balances l !! a) → is_Some (balances l' !! a)) ∧
  (∀ o s, is_Some (allowance_entry l o s) → is_Some (allowance_entry l' o s)).
Proof.
  assert (Hmove : ∀ from to x y l0 a,
            is_Some (balances l0 !! a) →
            is_Some (balances (credit to x (debit from y l0)) !! a)).
  { intros from to x y l0 a Hsome.
    rewrite balances_credit_lookup, balances_debit_lookup.
    repeat case_decide; eauto. }
  assert (Hset : ∀ owner spender v l0 o s,
            is_Some (allowance_entry l0 o s) →
            is_Some (allowance_entry (set_allowance owner spender v l0) o s)).
  { intros owner spender v l0 o s Hsome.
    rewrite allowance_entry_set_allowance. case_decide; eauto. }
  unfold apply_op.
  destruct op as [sk to amount|sk spender amount|sk from to amount]; simpl.
  - intros (_ & _ & ->)%call_transfer_ok. split; [by auto|done].
  - rewrite call_approve_ok. intros [= <-]. split; [done|by auto].
  - intros (v & _ & _ & _ & _ & ->)%call_transferFrom_ok. split.
    + intros a Hsome. by apply Hmove.
    + intros o s Hsome. rewrite allowance_entry_moved. by apply Hset.
Qed.

(** X13. No call removes an entry: through every sequence of calls, an
    address that has an entry in [balances] keeps one, and so does a
    pair that has an allowance entry.  So once the owner has called
    [approve] for a spender, no later [transferFrom] of that spender out
    of the owner fails with [NoAllowanceSet]. *)
Theorem entries_never_removed ops l :
  (∀ a, is_Some (balances l !! a) →
        is_Some (balances (run_calls ops l) !! a)) ∧
  (∀ o s, is_Some (allowance_entry l o s) →
          is_Some (allowance_entry (run_calls ops l) o s)) ∧
  (∀ owner_sk spender_sk A to amount,
     let owner := compute_address owner_sk in
     let spender := compute_address spender_sk in
     let l' := run_calls (OpApprove owner_sk spender A :: ops) l in
     snd (call (transferFrom owner to amount) spender_sk l') ≠
       inl NoAllowanceSet).
Proof.
  assert (Hentry : ∀ ops l0 o s, is_Some (allowance_entry l0 o s) →
            is_Some (allowance_entry (run_calls ops l0) o s)).
  { intros ops0 l0 o s.
    apply (run_calls_preserves (λ l, is_Some (allowance_entry l o s))).
    intros op l1 l2 r Hop. by apply (apply_op_ok_entries op l1 l2 r). }
  split_and!.
  - intros a. apply (run_calls_preserves (λ l, is_Some (balances l !! a))).
    intros op l1 l2 r Hop. by apply (apply_op_ok_entries op l1 l2 r).
  - apply Hentry.
  - intros owner_sk spender_sk A to amount owner spender.
    change (run_calls (OpApprove owner_sk spender A :: ops) l)
      with (run_calls ops (fst (call (approve spender A) owner_sk l))).
    rewrite call_approve_ok. simpl. fold owner.
    destruct (Hentry ops (set_allowance owner spender A l) owner spender)
      as [v Hv].
    { rewrite allowance_entry_set_allowance, decide_True by done. eauto. }
    unfold call. rewrite transferFrom_run. cbv zeta. fold spender.
    rewrite Hv. case_test; [|done]. case_test; [|done]. by case_test.
Qed.

Lemma apply_op_ok_typed op l l' r :
  apply_op op l = (l', inr r) → op_typed op →
  balances_typed l ∧ allowances_typed l →
  balances_typed l' ∧ allowances_typed l'.
Proof.
  assert (Hsub : ∀ v x, Uint222 v → Uint222 (v - x)).
  { unfold Uint222. lia. }
  assert (Hmove : ∀ from to x l0,
            balances_typed l0 →
            Uint222 (sim_balanceOf (debit from x l0) to + x) →
            balances_typed (credit to x (debit from x l0))).
  { intros from to x l0 Hty Hfit. unfold balances_typed, credit.
    simpl. apply map_Forall_insert_2; [done|].
    apply map_Forall_insert_2; [|done].
    by apply Hsub, balances_typed_balanceOf. }
  assert (Hset : ∀ owner spender v l0,
            allowances_typed l0 → Uint222 v →
            allowances_typed (set_allowance owner spender v l0)).
  { intros owner spender v l0 Hty Hv. unfold allowances_typed, set_allowance.
    simpl. apply map_Forall_insert_2; [|done].
    apply map_Forall_insert_2; [done|].
    destruct (allowances l0 !! owner) as [inner|] eqn:Hin; simpl.
    - by apply (Hty owner).
    - apply map_Forall_empty. }
  unfold apply_op, op_typed.
  destruct op as [sk to amount|sk spender amount|sk from to amount]; simpl.
  - intros (_ & Hfit & ->)%call_transfer_ok _ [Hb Ha]. split; [|done].
    by apply Hmove.
  - rewrite call_approve_ok. intros [= <-] Hty [Hb Ha]. split; [done|].
    by apply Hset.
  - intros (v & Hv & _ & _ & Hfit & ->)%call_transferFrom_ok _ [Hb Ha].
    split.
    + by apply Hmove.
    + apply (Hset from (compute_address sk) (v - amount) l Ha), Hsub.
      apply allowance_entry_Some in Hv as (inner & Hin & Hv).
      exact (Ha from inner Hin _ _ Hv).
Qed.

(** X14. Stored values stay in range.  From a ledger whose balances and
    allowances are [Uint<222>] values, every sequence of calls made with
    [Uint<222>] amounts, whatever their outcomes, leads to a ledger whose
    balances and allowances are [Uint<222>] values: nothing stored wraps
    or goes below zero. *)
Theorem typed_calls_keep_ledger_typed ops l :
  balances_typed l → allowances_typed l → Forall op_typed ops →
  balances_typed (run_calls ops l) ∧ allowances_typed (run_calls ops l).
Proof.
  intros Hb Ha Hops. revert l Hb Ha.
  induction Hops as [|op ops Hop _ IH]; simpl; intros l Hb Ha; [done|].
  destruct (apply_op_cases op l) as [[r Hstep]|Hsame].
  - destruct (apply_op_ok_typed _ _ _ _ Hstep Hop (conj Hb Ha)).
    by apply IH.
  - rewrite Hsame. by apply IH.
Qed.

(** ** Hexadecimal addresses *)

Lemma unhex_hex_digit (x : byte) :
  unhex (hex_digit (Byte.to_N x / 16)) = Some (Byte.to_N x / 16) ∧
  unhex (hex_digit (Byte.to_N x mod 16)) = Some (Byte.to_N x mod 16) ∧
  default x00 (Byte.of_N (16 * (Byte.to_N x / 16) + Byte.to_N x mod 16)) = x.
Proof. destruct x; vm_compute; done. Qed.

Lemma Buffer_hex_round_trip b : Buffer_from_hex (Buffer_toString_hex b) = b.
Proof.
  unfold Buffer_from_hex, Buffer_toString_hex.
  rewrite String.list_byte_of_string_of_list_byte.
  induction b as [|x b IH]; [done|].
  destruct (unhex_hex_digit x) as (Hhi & Hlo & Hx).
  cbn [flat_map app HexDecode]. by rewrite Hhi, Hlo, Hx, IH.
Qed.

Lemma api_balanceOf_bytes l address :
  api_balanceOf l address = sim_balanceOf l (stringToBytes32 address).
Proof. reflexivity. Qed.

Lemma api_allowance_bytes l owner spender :
  api_allowance l owner spender =
    sim_allowance l (stringToBytes32 owner) (stringToBytes32 spender).
Proof. reflexivity. Qed.

(** X15. Addresses written in hexadecimal.  Decoding the hexadecimal
    form of a byte string gives the byte string back.  So the simulator
    built with the hexadecimal form of an address, as the tests build
    it, mints the supply to that address, and the read methods of the
    API called with the hexadecimal forms of addresses return what the
    accessors of the simulator return for these addresses. *)
Theorem hex_addresses_round_trip :
  (∀ b, stringToBytes32 (Buffer_toString_hex b) = b) ∧
  (∀ initialSupply address name symbol decimals deployerSk,
     sim_balanceOf
       (getLedger (sim_new_hex initialSupply (Buffer_toString_hex address)
                     name symbol decimals deployerSk)) address
     = initialSupply) ∧
  (∀ l a, api_balanceOf l (Buffer_toString_hex a) = sim_balanceOf l a) ∧
  (∀ l o s,
     api_allowance l (Buffer_toString_hex o) (Buffer_toString_hex s) =
       sim_allowance l o s).
Proof.
  split_and!.
  - apply Buffer_hex_round_trip.
  - intros supply address name symbol decimals dsk.
    unfold sim_new_hex, sim_new. simpl.
    rewrite Buffer_hex_round_trip, initialState_eq, sim_balanceOf_lookup.
    simpl. by rewrite lookup_singleton_eq.
  - intros l a. rewrite api_balanceOf_bytes. unfold stringToBytes32.
    by rewrite Buffer_hex_round_trip.
  - intros l o s. rewrite api_allowance_bytes. unfold stringToBytes32.
    by rewrite !Buffer_hex_round_trip.
Qed.




(** ** The derived state of the API *)

(** X17. The state the API derives for the holder of a secret key, from
    a ledger reached from the constructor through calls of any outcome:
    its supply and metadata are the arguments of the constructor, and
    its [userBalance] is the balance the contract reads at the address
    of the key, at most the supply. *)
Theorem derived_state_reachable dsk initial_supply mint_address name symbol
    decimals ops sk :
  Uint222 initial_supply →
  let l := run_calls ops (initialState dsk initial_supply mint_address name
                            symbol decimals) in
  let d := derived_state l sk in
  derived_totalSupply d = initial_supply ∧ derived_tokenName d = name ∧
  derived_tokenSymbol d = symbol ∧ derived_tokenDecimals d = decimals ∧
  call (balanceOf (compute_address sk)) sk l = (l, inr (userBalance d)) ∧
  userBalance d ≤ initial_supply.
Proof.
  intros Hty l d.
  destruct (run_calls_fields ops
              (initialState dsk initial_supply mint_address name symbol
                 decimals)) as (Hts & Hn & Hs & Hd).
  fold l in Hts, Hn, Hs, Hd.
  assert (initialState dsk initial_supply mint_address name symbol decimals
          = mkLedger name symbol decimals initial_supply
              {[mint_address := initial_supply]} ∅) as Hinit
    by apply initialState_eq.
  rewrite Hinit in Hts, Hn, Hs, Hd. simpl in Hts, Hn, Hs, Hd.
  assert (reachable l) as Hreach by (unfold reachable; eauto 10).
  destruct (reachable_supply_bounded l Hreach) as [Hsum _].
  pose proof (balance_le_sum l (compute_address sk)) as Hle.
  split_and!; try done.
  - apply call_ok, balanceOf_run.
  - change (userBalance d) with (sim_balanceOf l (compute_address sk)).
    lia.
Qed.

(** ** Approvals that compose *)

Lemma ledger_eq_allowances l1 l2 :
  tokenName l1 = tokenName l2 → tokenSymbol l1 = tokenSymbol l2 →
  tokenDecimals l1 = tokenDecimals l2 → totalSupply l1 = totalSupply l2 →
  balances l1 = balances l2 → allowances l1 = allowances l2 → l1 = l2.
Proof. destruct l1, l2; simpl. by intros -> -> -> -> -> ->. Qed.

Lemma set_allowance_twice owner spender v w l :
  set_allowance owner spender w (set_allowance owner spender v l) =
    set_allowance owner spender w l.
Proof.
  apply ledger_eq_allowances; try done.
  unfold set_allowance; simpl.
  rewrite lookup_insert_eq. simpl. by rewrite !insert_insert_eq.
Qed.

Lemma set_allowance_comm o1 s1 v1 o2 s2 v2 l :
  (o1, s1) ≠ (o2, s2) →
  set_allowance o1 s1 v1 (set_allowance o2 s2 v2 l) =
    set_allowance o2 s2 v2 (set_allowance o1 s1 v1 l).
Proof.
  intros Hne. apply ledger_eq_allowances; try done.
  unfold set_allowance; simpl.
  destruct (decide (o1 = o2)) as [->|Ho].
  - rewrite !lookup_insert_eq, !insert_insert_eq. simpl. f_equal.
    apply insert_insert_ne. congruence.
  - rewrite !lookup_insert_ne by done.
    by apply insert_insert_ne.
Qed.

(** X18. How approvals compose.  As ledgers, not only as allowance
    reads: approving twice for the same spender is approving once with
    the last amount; approvals of two different pairs can be made in
    either order; and an [approve] and a [transfer] can be made in either
    order, with the same outcome of the transfer and the same ledger. *)
Theorem approve_composes l sk spender A B :
  fst (call (approve spender B) sk (fst (call (approve spender A) sk l))) =
    fst (call (approve spender B) sk l) ∧
  (∀ sk' spender',
     (compute_address sk, spender) ≠ (compute_address sk', spender') →
     fst (call (approve spender' B) sk' (fst (call (approve spender A) sk l)))
     = fst (call (approve spender A) sk
              (fst (call (approve spender' B) sk' l)))) ∧
  (∀ sk' to amount,
     snd (call (transfer to amount) sk' (fst (call (approve spender A) sk l)))
     = snd (call (transfer to amount) sk' l) ∧
     fst (call (transfer to amount) sk' (fst (call (approve spender A) sk l)))
     = fst (call (approve spender A) sk
              (fst (call (transfer to amount) sk' l)))).
Proof.
  rewrite !call_approve_ok. simpl. split_and!.
  - apply set_allowance_twice.
  - intros sk' spender' Hne. rewrite !call_approve_ok. simpl.
    apply set_allowance_comm. congruence.
  - intros sk' to amount. rewrite call_approve_ok. simpl.
    unfold call. rewrite !transfer_run. cbv zeta.
    set (l1 := set_allowance (compute_address sk) spender A l).
    change (sim_balanceOf l1 (compute_address sk'))
      with (sim_balanceOf l (compute_address sk')).
    change (sim_balanceOf (debit (compute_address sk') amount l1) to)
      with (sim_balanceOf (debit (compute_address sk') amount l) to).
    case_test; [|done]. by case_test.
Qed.

End Properties.

(** ** The contract on concrete inputs *)

#[local] Existing Instance toy_hash.

Lemma ledger_1000_bounded : supply_bounded ledger_1000.
Proof. split; by vm_compute. Qed.

Lemma ledger_1000_typed : balances_typed ledger_1000.
Proof. apply supply_bounded_typed, ledger_1000_bounded. Qed.

Lemma ledger_approved_bounded : supply_bounded ledger_approved.
Proof. split; by vm_compute. Qed.

Lemma test_addresses_distinct :
  addr_deployer ≠ addr_recipient ∧ addr_other ≠ addr_deployer ∧
  addr_spender ≠ addr_deployer.
Proof. split_and!; by vm_compute. Qed.

Lemma conservation_witness :
  ∃ l, run_ops test_ops ledger_1000 = Some l ∧
       sum_balances (balances l) = totalSupply l.
Proof.
  destruct (run_ops test_ops ledger_1000) as [l|] eqn:Hrun.
  - exists l. split; [reflexivity|].
    exact (conservation sk_deployer 1000 addr_deployer "TestToken" "TTK" 18
             test_ops l Hrun).
  - vm_compute in Hrun. discriminate Hrun.
Defined.

Lemma failure_atomicity_witness :
  apply_op (OpTransfer sk_other addr_recipient 5) ledger_1000 =
    (ledger_1000, inl InsufficientBalance) ∧
  ∃ l1, transfer addr_recipient 5 sk_other ledger_1000 =
          (l1, inl InsufficientBalance) ∧
        (InsufficientBalance ≠ ArithmeticOverflow → l1 = ledger_1000).
Proof.
  assert (apply_op (OpTransfer sk_other addr_recipient 5) ledger_1000 =
            (ledger_1000, inl InsufficientBalance)) as Hfail
    by (vm_compute; reflexivity).
  split; [exact Hfail|].
  exact (proj2 (proj2 (failure_atomicity _ _ _ _ Hfail))).
Defined.

(** On [ledger_full] the cast of [transfer] fails: the circuit stops
    after the debit, and the call leaves the ledger as it was. *)
Lemma transfer_overflow_rolls_back :
  transfer addr_recipient 1 sk_deployer ledger_full =
    (debit addr_deployer 1 ledger_full, inl ArithmeticOverflow) ∧
  debit addr_deployer 1 ledger_full ≠ ledger_full ∧
  call (transfer addr_recipient 1) sk_deployer ledger_full =
    (ledger_full, inl ArithmeticOverflow).
Proof.
  split_and!; [vm_compute; reflexivity| |vm_compute; reflexivity].
  intros Heq. apply (f_equal (λ l, sim_balanceOf l addr_deployer)) in Heq.
  vm_compute in Heq. discriminate Heq.
Qed.

Lemma transferFrom_check_order_witness :
  allowances ledger_approved !! addr_deployer = Some {[addr_spender := 400]} ∧
  ({[addr_spender := 400]} : gmap Bytes N) !! addr_spender = Some 400 ∧
  250 ≤ 400 ∧ 250 ≤ sim_balanceOf ledger_approved addr_deployer ∧
  reachable ledger_approved ∧
  snd (call (transferFrom addr_deployer addr_recipient 250) sk_spender
         ledger_approved) = inr tt.
Proof.
  assert (allowances ledger_approved !! addr_deployer
          = Some {[addr_spender := 400]}) as Hin by (vm_compute; reflexivity).
  assert (({[addr_spender := 400]} : gmap Bytes N) !! addr_spender
          = Some 400) as Ha by (vm_compute; reflexivity).
  assert (250 ≤ 400) as Hle by lia.
  assert (250 ≤ sim_balanceOf ledger_approved addr_deployer) as Hle'
    by (by vm_compute).
  assert (reachable ledger_approved) as Hreach.
  { exists sk_deployer, 1000, addr_deployer, "TestToken"%string,
      "TTK"%string, 18, [OpApprove sk_deployer addr_spender 400].
    split; [by vm_compute|reflexivity]. }
  split_and!; [done..|].
  exact (proj1 (proj2 (proj2 (proj2 (transferFrom_check_order ledger_approved
           sk_spender addr_deployer addr_recipient 250) _ _ Hin Ha)))
           Hle Hle' (or_introl Hreach)).
Defined.

Lemma transferFrom_postcondition_witness :
  call (approve addr_spender 400) sk_deployer ledger_1000 =
    (ledger_approved, inr tt) ∧
  call (transferFrom addr_deployer addr_recipient 250) sk_spender
    ledger_approved = (ledger_spent, inr tt) ∧
  addr_deployer ≠ addr_recipient ∧
  sim_balanceOf ledger_spent addr_deployer + 250 =
    sim_balanceOf ledger_approved addr_deployer ∧
  sim_allowance ledger_spent addr_deployer addr_spender = 150 ∧
  sim_balanceOf ledger_spent addr_recipient =
    sim_balanceOf ledger_1000 addr_recipient + 250.
Proof.
  assert (call (approve addr_spender 400) sk_deployer ledger_1000 =
            (ledger_approved, inr tt)) as Happ by (vm_compute; reflexivity).
  assert (call (transferFrom addr_deployer addr_recipient 250) sk_spender
            ledger_approved = (ledger_spent, inr tt)) as Hcall
    by (vm_compute; reflexivity).
  assert (addr_deployer ≠ addr_recipient) as Hne by (by vm_compute).
  split_and!; [done..| | |].
  - exact (proj1 (proj2 (proj1 transferFrom_postcondition _ _ _ _ _ _
                           Hcall Hne))).
  - exact (proj1 (proj2 (proj2 transferFrom_postcondition _ _ _ _ _ _
                           Happ Hcall Hne))).
  - exact (proj2 (proj2 (proj2 transferFrom_postcondition _ _ _ _ _ _
                           Happ Hcall Hne))).
Defined.

Lemma approve_overwrites_witness :
  (addr_spender, addr_deployer) ≠ (addr_deployer, addr_spender) ∧
  ∃ l1 l2,
    call (approve addr_spender 400) sk_deployer ledger_1000 = (l1, inr tt) ∧
    call (approve addr_spender 7) sk_deployer l1 = (l2, inr tt) ∧
    sim_allowance l2 addr_deployer addr_spender = 7 ∧
    sim_allowance l2 addr_spender addr_deployer =
      sim_allowance ledger_1000 addr_spender addr_deployer.
Proof.
  assert ((addr_spender, addr_deployer) ≠ (addr_deployer, addr_spender))
    as Hne by (by vm_compute).
  split; [exact Hne|].
  destruct (approve_overwrites ledger_1000 sk_deployer addr_spender 400 7)
    as (l1 & l2 & H1 & _ & _ & H2 & H3 & H4).
  exists l1, l2. split_and!; [exact H1|exact H2|exact H3|].
  exact (proj2 (H4 _ _ Hne)).
Defined.

Lemma self_transfer_identity_witness :
  balances_typed ledger_1000 ∧
  300 ≤ sim_balanceOf ledger_1000 addr_deployer ∧
  (∃ l', call (transfer addr_deployer 300) sk_deployer ledger_1000 =
           (l', inr tt) ∧
         sim_balanceOf l' addr_deployer =
           sim_balanceOf ledger_1000 addr_deployer) ∧
  call (transferFrom addr_deployer addr_deployer 250) sk_spender
    ledger_approved = (ledger_self_spent, inr tt) ∧
  sim_balanceOf ledger_self_spent addr_deployer =
    sim_balanceOf ledger_approved addr_deployer ∧
  sim_allowance ledger_self_spent addr_deployer addr_spender + 250 =
    sim_allowance ledger_approved addr_deployer addr_spender.
Proof.
  assert (300 ≤ sim_balanceOf ledger_1000 addr_deployer) as Hle
    by (by vm_compute).
  assert (call (transferFrom addr_deployer addr_deployer 250) sk_spender
            ledger_approved = (ledger_self_spent, inr tt)) as Hcall
    by (vm_compute; reflexivity).
  split_and!; [exact ledger_1000_typed|exact Hle| |exact Hcall|..].
  - exact (proj1 (self_transfer_identity ledger_1000 sk_deployer 300)
             ledger_1000_typed Hle).
  - exact (proj1 (proj2 (self_transfer_identity ledger_approved sk_spender
                           250) addr_deployer _ Hcall)).
  - exact (proj2 (proj2 (self_transfer_identity ledger_approved sk_spender
                           250) addr_deployer _ Hcall)).
Defined.

(** [transfer(recipient, 0)] by a caller without tokens succeeds, but the
    ledger is not the one from before the call: the caller and the
    recipient, who had no entries in [balances], now have entries with
    value 0. *)
Lemma zero_transfer_changes_ledger :
  call (transfer addr_recipient 0) sk_other ledger_1000 ≠
    (ledger_1000, inr tt).
Proof.
  intros Heq.
  apply (f_equal (λ r, balances (fst r) !! addr_recipient)) in Heq.
  vm_compute in Heq. discriminate Heq.
Qed.

Lemma zero_transfer_adds_entries :
  ∃ l', call (transfer addr_recipient 0) sk_other ledger_1000 = (l', inr tt) ∧
    size (balances ledger_1000) = 1%nat ∧ size (balances l') = 3%nat ∧
    balances ledger_1000 !! addr_other = None ∧
    balances l' !! addr_other = Some 0 ∧
    balances ledger_1000 !! addr_recipient = None ∧
    balances l' !! addr_recipient = Some 0.
Proof. eexists. split_and!; vm_compute; reflexivity. Qed.

Lemma zero_transfer_observations_witness :
  balances_typed ledger_1000 ∧
  (∃ l', call (transfer addr_recipient 0) sk_other ledger_1000 =
           (l', inr tt) ∧
         ∀ a, sim_balanceOf l' a = sim_balanceOf ledger_1000 a) ∧
  is_Some (balances ledger_1000 !! addr_deployer) ∧
  call (transfer addr_deployer 0) sk_deployer ledger_1000 =
    (ledger_1000, inr tt).
Proof.
  assert (is_Some (balances ledger_1000 !! addr_deployer)) as Hsome
    by (exists 1000; vm_compute; reflexivity).
  split_and!; [exact ledger_1000_typed| |exact Hsome|].
  - destruct (zero_transfer_observations ledger_1000 sk_other addr_recipient
                ledger_1000_typed) as (l' & Hcall & Hbal & _).
    exists l'. split; [exact Hcall|exact Hbal].
  - destruct (zero_transfer_observations ledger_1000 sk_deployer
                addr_deployer ledger_1000_typed)
      as (l' & Hcall & _ & _ & _ & _ & _ & _ & _ & _ & Hid).
    rewrite <- (Hid Hsome Hsome) at 2. exact Hcall.
Defined.

Lemma constructor_postcondition_witness :
  addr_other ≠ addr_deployer ∧
  totalSupply ledger_1000 = 1000 ∧
  sim_balanceOf ledger_1000 addr_deployer = 1000 ∧
  sim_balanceOf ledger_1000 addr_other = 0 ∧
  allowances ledger_1000 = ∅.
Proof.
  assert (addr_other ≠ addr_deployer) as Hne by (by vm_compute).
  pose proof (constructor_postcondition sk_deployer 1000 addr_deployer
                "TestToken" "TTK" 18) as (_ & Hts & Hmint & Hother & Hal & _).
  split_and!; [exact Hne|exact Hts|exact Hmint| |exact Hal].
  exact (Hother addr_other Hne).
Defined.

Lemma overflow_unreachable_witness :
  reachable ledger_1000 ∧ supply_bounded ledger_1000 ∧
  300 ≤ sim_balanceOf ledger_1000 addr_deployer ∧
  sim_balanceOf (debit addr_deployer 300 ledger_1000) addr_recipient + 300
    ≤ totalSupply ledger_1000 ∧
  snd (transfer addr_recipient 300 sk_deployer ledger_1000) ≠
    inl ArithmeticOverflow.
Proof.
  assert (reachable ledger_1000) as Hreach.
  { exists sk_deployer, 1000, addr_deployer, "TestToken"%string,
      "TTK"%string, 18, []. split; [by vm_compute|reflexivity]. }
  assert (300 ≤ sim_balanceOf ledger_1000 addr_deployer) as Hle
    by (by vm_compute).
  pose proof (proj1 (overflow_unreachable ledger_1000) Hreach) as Hinv.
  destruct (proj2 (overflow_unreachable ledger_1000) Hinv)
    as (Hsum & Htr & _).
  split_and!; [exact Hreach|exact Hinv|exact Hle| |].
  - exact (proj1 (Hsum addr_deployer addr_recipient 300 Hle)).
  - exact (Htr sk_deployer addr_recipient 300).
Defined.

Lemma zero_allowance_is_not_no_allowance_witness :
  Forall (λ op, ¬ approves addr_deployer addr_spender op)
    [OpTransfer sk_deployer addr_recipient 300] ∧
  (let l := run_calls [OpTransfer sk_deployer addr_recipient 300]
              ledger_1000 in
   call (transferFrom addr_deployer addr_recipient 0) sk_spender l =
     (l, inl NoAllowanceSet)) ∧
  balances_typed ledger_1000 ∧
  ∃ l1 l2,
    call (approve addr_spender 0) sk_deployer ledger_1000 = (l1, inr tt) ∧
    call (transferFrom addr_deployer addr_recipient 0) sk_spender l1 =
      (l2, inr tt) ∧
    (∀ a, sim_balanceOf l2 a = sim_balanceOf l1 a) ∧
    (∀ o s, sim_allowance l2 o s = sim_allowance l1 o s).
Proof.
  assert (Forall (λ op, ¬ approves addr_deployer addr_spender op)
            [OpTransfer sk_deployer addr_recipient 300]) as Hops.
  { repeat constructor. simpl. tauto. }
  split_and!; [exact Hops| |exact ledger_1000_typed|].
  - exact (proj1 zero_allowance_is_not_no_allowance sk_deployer 1000
             addr_deployer "TestToken"%string "TTK"%string 18 _
             addr_deployer sk_spender addr_recipient Hops).
  - exact (proj2 (proj2 zero_allowance_is_not_no_allowance) ledger_1000
             sk_deployer sk_spender addr_recipient ledger_1000_typed).
Defined.

(** ** The tests of the repository, on the simulator *)

(** [properly initializes ledger state] *)
Lemma test_initializes :
  let simulator :=
    sim_new 1000 addr_deployer "TestToken" "TTK" 18 (Some sk_deployer) in
  let l := getLedger simulator in
  tokenName l = "TestToken"%string ∧ tokenSymbol l = "TTK"%string ∧
  tokenDecimals l = 18 ∧ totalSupply l = 1000 ∧
  sim_balanceOf l addr_deployer = 1000 ∧ sim_balanceOf l addr_other = 0 ∧
  size (allowances l) = 0%nat.
Proof. cbv zeta. split_and!; vm_compute; reflexivity. Qed.

(** [performs a transfer correctly] *)
Lemma test_transfer :
  let simulator :=
    sim_new 1000 addr_deployer "TestToken" "TTK" 18 (Some sk_deployer) in
  let simulator' := fst (sim_transfer addr_recipient 300 simulator) in
  let l := getLedger simulator' in
  sim_balanceOf l addr_deployer = 700 ∧
  sim_balanceOf l addr_recipient = 300 ∧ totalSupply l = 1000.
Proof. cbv zeta. split_and!; vm_compute; reflexivity. Qed.

(** [approves and performs transferFrom correctly] *)
Lemma test_approve_transferFrom :
  let simulator :=
    sim_new 1000 addr_deployer "TestToken" "TTK" 18 (Some sk_deployer) in
  let simulator1 := fst (sim_approve addr_spender 400 simulator) in
  let simulator2 :=
    fst (sim_transferFrom addr_deployer addr_recipient 250
           (setSk sk_spender simulator1)) in
  sim_allowance (getLedger simulator1) addr_deployer addr_spender = 400 ∧
  sim_balanceOf (getLedger simulator2) addr_deployer = 750 ∧
  sim_balanceOf (getLedger simulator2) addr_recipient = 250 ∧
  sim_allowance (getLedger simulator2) addr_deployer addr_spender = 150.
Proof. cbv zeta. split_and!; vm_compute; reflexivity. Qed.

(** ** More runs on concrete inputs *)

Lemma ledger_approved_reachable : reachable ledger_approved.
Proof.
  exists sk_deployer, 1000, addr_deployer, "TestToken"%string,
    "TTK"%string, 18, [OpApprove sk_deployer addr_spender 400].
  split; [by vm_compute|reflexivity].
Qed.

Lemma reachable_balances_bounded_witness :
  reachable ledger_approved ∧
  sim_balanceOf ledger_approved addr_deployer ≤ totalSupply ledger_approved.
Proof.
  split; [exact ledger_approved_reachable|].
  exact (proj1 (proj2 (reachable_balances_bounded ledger_approved
                         ledger_approved_reachable) addr_deployer)).
Defined.

Lemma transfer_outcome_witness :
  supply_bounded ledger_1000 ∧
  300 ≤ sim_balanceOf ledger_1000 addr_deployer ∧
  (∃ l', call (transfer addr_recipient 300) sk_deployer ledger_1000 =
           (l', inr tt)) ∧
  sim_balanceOf ledger_1000 addr_other < 5 ∧
  call (transfer addr_recipient 5) sk_other ledger_1000 =
    (ledger_1000, inl InsufficientBalance).
Proof.
  assert (300 ≤ sim_balanceOf ledger_1000 addr_deployer) as Hle
    by (by vm_compute).
  assert (sim_balanceOf ledger_1000 addr_other < 5) as Hlt
    by (vm_compute; reflexivity).
  split_and!; [exact ledger_1000_bounded|exact Hle| |exact Hlt|].
  - exact (proj1 (transfer_outcome ledger_1000 sk_deployer addr_recipient
                    300) ledger_1000_bounded Hle).
  - exact (proj2 (transfer_outcome ledger_1000 sk_other addr_recipient 5)
             Hlt).
Defined.

Lemma transfer_sent :
  call (transfer addr_recipient 300) sk_deployer ledger_1000 =
    (ledger_sent, inr tt).
Proof. vm_compute; reflexivity. Qed.

Lemma transferFrom_spent :
  call (transferFrom addr_deployer addr_recipient 250) sk_spender
    ledger_approved = (ledger_spent, inr tt).
Proof. vm_compute; reflexivity. Qed.

Lemma transfer_postcondition_witness :
  call (transfer addr_recipient 300) sk_deployer ledger_1000 =
    (ledger_sent, inr tt) ∧
  addr_deployer ≠ addr_recipient ∧
  sim_balanceOf ledger_sent addr_deployer + 300 =
    sim_balanceOf ledger_1000 addr_deployer ∧
  sim_balanceOf ledger_sent addr_recipient =
    sim_balanceOf ledger_1000 addr_recipient + 300 ∧
  addr_other ≠ addr_deployer ∧ addr_other ≠ addr_recipient ∧
  sim_balanceOf ledger_sent addr_other = sim_balanceOf ledger_1000 addr_other.
Proof.
  assert (addr_deployer ≠ addr_recipient) as Hne by (by vm_compute).
  assert (addr_other ≠ addr_deployer) as Hne1 by (by vm_compute).
  assert (addr_other ≠ addr_recipient) as Hne2 by (by vm_compute).
  pose proof (transfer_postcondition ledger_1000 sk_deployer addr_recipient
                300 ledger_sent transfer_sent) as (Hmove & Hframe & _).
  split_and!; [exact transfer_sent|exact Hne| | |exact Hne1|exact Hne2|].
  - exact (proj1 (Hmove Hne)).
  - exact (proj2 (Hmove Hne)).
  - exact (Hframe addr_other Hne1 Hne2).
Defined.

Lemma transferFrom_frame_witness :
  call (transferFrom addr_deployer addr_recipient 250) sk_spender
    ledger_approved = (ledger_spent, inr tt) ∧
  addr_other ≠ addr_deployer ∧ addr_other ≠ addr_recipient ∧
  sim_balanceOf ledger_spent addr_other =
    sim_balanceOf ledger_approved addr_other ∧
  (addr_spender, addr_deployer) ≠ (addr_deployer, addr_spender) ∧
  allowance_entry ledger_spent addr_spender addr_deployer =
    allowance_entry ledger_approved addr_spender addr_deployer ∧
  totalSupply ledger_spent = totalSupply ledger_approved.
Proof.
  assert (addr_other ≠ addr_deployer) as Hne1 by (by vm_compute).
  assert (addr_other ≠ addr_recipient) as Hne2 by (by vm_compute).
  assert ((addr_spender, addr_deployer) ≠ (addr_deployer, addr_spender))
    as Hne3 by (by vm_compute).
  pose proof (transferFrom_frame ledger_approved sk_spender addr_deployer
                addr_recipient 250 ledger_spent transferFrom_spent)
    as (Hbal & Hal & _ & Hts).
  split_and!; [exact transferFrom_spent|exact Hne1|exact Hne2|
               |exact Hne3| |exact Hts].
  - exact (Hbal addr_other Hne1 Hne2).
  - exact (Hal addr_spender addr_deployer Hne3).
Defined.

Lemma approve_then_transferFrom_witness :
  supply_bounded ledger_1000 ∧
  ∃ l1, call (approve addr_spender 400) sk_deployer ledger_1000 =
          (l1, inr tt) ∧
        snd (call (transferFrom addr_deployer addr_recipient 250) sk_spender
               l1) =
          if 400 <? 250 then inl InsufficientAllowance
          else if sim_balanceOf ledger_1000 addr_deployer <? 250
               then inl InsufficientBalance
               else inr tt.
Proof.
  split; [exact ledger_1000_bounded|].
  exact (approve_then_transferFrom ledger_1000 sk_deployer sk_spender
           addr_recipient 400 250 ledger_1000_bounded).
Defined.

Lemma debit_is_authorized_witness :
  apply_op (OpTransfer sk_deployer addr_recipient 300) ledger_1000 =
    (ledger_sent, inr tt) ∧
  sim_balanceOf ledger_sent addr_deployer <
    sim_balanceOf ledger_1000 addr_deployer ∧
  sim_balanceOf ledger_1000 addr_deployer ≤
    sim_balanceOf ledger_sent addr_deployer + 300.
Proof.
  assert (sim_balanceOf ledger_sent addr_deployer <
            sim_balanceOf ledger_1000 addr_deployer) as Hlt
    by (vm_compute; reflexivity).
  split_and!; [exact transfer_sent|exact Hlt|].
  exact (proj1 (debit_is_authorized
                  (OpTransfer sk_deployer addr_recipient 300) ledger_1000
                  ledger_sent tt addr_deployer transfer_sent Hlt)).
Defined.

Lemma allowance_is_a_budget_witness :
  Forall (λ op, ¬ approves addr_deployer addr_spender op) spend_ops ∧
  total_spent addr_deployer addr_spender spend_ops = 400 ∧
  ∃ l', run_ops spend_ops ledger_approved = Some l' ∧
        sim_allowance l' addr_deployer addr_spender +
          total_spent addr_deployer addr_spender spend_ops =
        sim_allowance ledger_approved addr_deployer addr_spender.
Proof.
  assert (Forall (λ op, ¬ approves addr_deployer addr_spender op) spend_ops)
    as Hops.
  { repeat constructor; simpl; tauto. }
  split_and!; [exact Hops|vm_compute; reflexivity|].
  destruct (run_ops spend_ops ledger_approved) as [l'|] eqn:Hrun.
  - exists l'. split; [reflexivity|].
    exact (allowance_is_a_budget addr_deployer addr_spender spend_ops
             ledger_approved l' Hrun Hops).
  - vm_compute in Hrun. discriminate Hrun.
Defined.

Lemma transfer_additive_witness :
  addr_deployer ≠ addr_recipient ∧
  call (transfer addr_recipient (100 + 200)) sk_deployer ledger_1000 =
    (ledger_sent, inr tt) ∧
  ∃ l1, call (transfer addr_recipient 100) sk_deployer ledger_1000 =
          (l1, inr tt) ∧
        call (transfer addr_recipient 200) sk_deployer l1 =
          (ledger_sent, inr tt).
Proof.
  assert (addr_deployer ≠ addr_recipient) as Hne by (by vm_compute).
  split_and!; [exact Hne|exact transfer_sent|].
  exact (proj2 (transfer_additive ledger_1000 sk_deployer addr_recipient
                  100 200 ledger_sent Hne) transfer_sent).
Defined.

Lemma transfer_there_and_back_witness :
  balances_typed ledger_1000 ∧
  call (transfer addr_spender 300) sk_deployer ledger_1000 =
    (ledger_paid, inr tt) ∧
  ∃ l2, call (transfer addr_deployer 300) sk_spender ledger_paid =
          (l2, inr tt) ∧
        ∀ a, sim_balanceOf l2 a = sim_balanceOf ledger_1000 a.
Proof.
  assert (call (transfer addr_spender 300) sk_deployer ledger_1000 =
            (ledger_paid, inr tt)) as Hcall by (vm_compute; reflexivity).
  split_and!; [exact ledger_1000_typed|exact Hcall|].
  exact (transfer_there_and_back ledger_1000 sk_deployer sk_spender 300
           ledger_paid ledger_1000_typed Hcall).
Defined.

Lemma transferFrom_moves_like_transfer_witness :
  call (transferFrom addr_deployer addr_recipient 250) sk_spender
    ledger_approved = (ledger_spent, inr tt) ∧
  ∃ l1, call (transfer addr_recipient 250) sk_deployer ledger_approved =
          (l1, inr tt) ∧
        balances l1 = balances ledger_spent ∧
        allowances l1 = allowances ledger_approved.
Proof.
  split; [exact transferFrom_spent|].
  exact (transferFrom_moves_like_transfer ledger_approved sk_spender
           sk_deployer addr_recipient 250 ledger_spent transferFrom_spent).
Defined.

Lemma entries_never_removed_witness :
  is_Some (balances ledger_1000 !! addr_deployer) ∧
  is_Some (balances (run_calls test_ops ledger_1000) !! addr_deployer) ∧
  is_Some (allowance_entry ledger_approved addr_deployer addr_spender) ∧
  is_Some (allowance_entry (run_calls spend_ops ledger_approved)
             addr_deployer addr_spender).
Proof.
  assert (is_Some (balances ledger_1000 !! addr_deployer)) as Hb
    by (exists 1000; vm_compute; reflexivity).
  assert (is_Some (allowance_entry ledger_approved addr_deployer
                     addr_spender)) as Ha
    by (exists 400; vm_compute; reflexivity).
  split_and!; [exact Hb| |exact Ha|].
  - exact (proj1 (entries_never_removed test_ops ledger_1000) _ Hb).
  - exact (proj1 (proj2 (entries_never_removed spend_ops ledger_approved))
             _ _ Ha).
Defined.

Lemma ledger_1000_allowances_typed : allowances_typed ledger_1000.
Proof. intros k inner Hk. vm_compute in Hk. discriminate Hk. Qed.

Lemma test_ops_typed : Forall op_typed test_ops.
Proof. repeat constructor; by vm_compute. Qed.

Lemma typed_calls_keep_ledger_typed_witness :
  balances_typed ledger_1000 ∧ allowances_typed ledger_1000 ∧
  Forall op_typed test_ops ∧
  balances_typed (run_calls test_ops ledger_1000) ∧
  allowances_typed (run_calls test_ops ledger_1000).
Proof.
  split_and!; [exact ledger_1000_typed|exact ledger_1000_allowances_typed|
               exact test_ops_typed|..].
  - exact (proj1 (typed_calls_keep_ledger_typed test_ops ledger_1000
                    ledger_1000_typed ledger_1000_allowances_typed
                    test_ops_typed)).
  - exact (proj2 (typed_calls_keep_ledger_typed test_ops ledger_1000
                    ledger_1000_typed ledger_1000_allowances_typed
                    test_ops_typed)).
Defined.


Lemma derived_state_reachable_witness :
  Uint222 1000 ∧
  userBalance (derived_state (run_calls test_ops ledger_1000) sk_deployer)
    ≤ 1000 ∧
  derived_totalSupply
    (derived_state (run_calls test_ops ledger_1000) sk_deployer) = 1000.
Proof.
  assert (Uint222 1000) as Hty by (by vm_compute).
  pose proof (derived_state_reachable sk_deployer 1000 addr_deployer
                "TestToken" "TTK" 18 test_ops sk_deployer Hty)
    as (Hts & _ & _ & _ & _ & Hle).
  split_and!; [exact Hty|exact Hle|exact Hts].
Defined.

(** The hexadecimal forms the tests pass around decode as Node decodes
    them. *)
Lemma hex_examples :
  Buffer_from_hex "00ff10Ab" = [x00; xff; x10; xab] ∧
  Buffer_toString_hex [x00; xff; x10; xab] = "00ff10ab"%string ∧
  Buffer_from_hex "abc" = [xab] ∧ Buffer_from_hex "12zz34" = [x12] ∧
  Buffer_from_hex "0x1234" = [].
Proof. split_and!; vm_compute; reflexivity. Qed.

Lemma approve_composes_witness :
  (addr_deployer, addr_spender) ≠ (addr_spender, addr_deployer) ∧
  fst (call (approve addr_deployer 7) sk_spender
         (fst (call (approve addr_spender 400) sk_deployer ledger_1000))) =
  fst (call (approve addr_spender 400) sk_deployer
         (fst (call (approve addr_deployer 7) sk_spender ledger_1000))).
Proof.
  assert ((addr_deployer, addr_spender) ≠ (addr_spender, addr_deployer))
    as Hne by (by vm_compute).
  split; [exact Hne|].
  exact (proj1 (proj2 (approve_composes ledger_1000 sk_deployer addr_spender
                         400 7)) sk_spender addr_deployer Hne).
Defined.
